(** * RagFlow DeepSeek CoT optimizer: the reasoning-span transducer

    A shallow embedding of [Pipe._transform_chunk], [Pipe._try_finalize_chunks],
    [Pipe._finalize_all_chunks] and the line loop of [Pipe.pipe] from
    [ragflow_deepseek_cot_optimizer.py], with the properties of the
    specification stated and settled against them. *)

From Stdlib Require Import String Ascii List Bool Arith Lia.
Import ListNotations.

(** ** Python strings

    A Python [str] is a sequence of characters; the markers and the
    decorations are ASCII, so a chunk is modelled as a list of characters. *)

Definition str := list ascii.

Definition lit (s : string) : str := list_ascii_of_string s.

(** The line feed character, written [\n] in the source. *)
Definition nl : ascii := ascii_of_nat 10.

Module Py.

(** [s.startswith(p)] *)
Fixpoint startswith (p s : str) : bool :=
  match p, s with
  | [], _ => true
  | _ :: _, [] => false
  | a :: p', b :: s' => Ascii.eqb a b && startswith p' s'
  end.

(** [s.find(p)]: the lowest index at which [p] occurs in [s], [None] for
    Python's -1.  [s.index(p)] is the same value when [p in s] holds. *)
Fixpoint index (p s : str) : option nat :=
  if startswith p s then Some 0
  else match s with
       | [] => None
       | _ :: s' => option_map S (index p s')
       end.

(** [p in s] *)
Definition contains (p s : str) : bool :=
  match index p s with Some _ => true | None => false end.

(** [s.replace(old, new)] for a non-empty [old]: the occurrences of [old]
    are found from left to right without overlap; [skip] counts the
    characters of the occurrence being replaced that are still to drop. *)
Fixpoint replace_from (old new : str) (skip : nat) (s : str) : str :=
  match s with
  | [] => []
  | c :: s' =>
      match skip with
      | S k => replace_from old new k s'
      | O => if startswith old s
             then new ++ replace_from old new (length old - 1) s'
             else c :: replace_from old new 0 s'
      end
  end.

Definition replace (old new s : str) : str := replace_from old new 0 s.

(** The number of (possibly overlapping) positions at which [p] occurs. *)
Fixpoint occurrences (p s : str) : nat :=
  (if startswith p s then 1 else 0) +
  match s with
  | [] => 0
  | _ :: s' => occurrences p s'
  end.

(** [l.pop(i)] on a list: the element and the list without it; [None]
    where Python raises [IndexError]. *)
Fixpoint pop {A : Type} (i : nat) (l : list A) : option (A * list A) :=
  match l, i with
  | [], _ => None
  | x :: l', O => Some (x, l')
  | x :: l', S i' =>
      match pop i' l' with
      | Some (y, l'') => Some (y, x :: l'')
      | None => None
      end
  end.

(** [l[i:j]] for [0 <= i <= j]. *)
Definition slice {A : Type} (i j : nat) (l : list A) : list A :=
  firstn (j - i) (skipn i l).

End Py.

(** ** Markers and decorations *)

Definition think_open : str := lit "<think>".
Definition think_close : str := lit "</think>".
Definition block_open : str := nl :: lit "```Reasoning..." ++ [nl].
Definition block_close : str := nl :: lit "```" ++ [nl].

(** The leftover patterns of [_transform_chunk], in the order of the source. *)
Definition leftover_patterns : list str :=
  [lit "/think>"; lit "think>"; lit "hink>"; lit "ink>"; lit "nk>"; lit "k>"].

(** ** The transducer context: the dict [{"first_think_found": bool}] *)

Record context : Type := { first_think_found : bool }.

Definition fresh : context := {| first_think_found := false |}.
Definition seen : context := {| first_think_found := true |}.

(** ** A small error monad: [None] is a loop that ran out of fuel. *)

Definition bind {A B : Type} (m : option A) (k : A -> option B) : option B :=
  match m with
  | Some a => k a
  | None => None
  end.

Notation "x <- m ;; k" := (bind m (fun x => k))
  (at level 61, m at next level, right associativity).
Notation "' p <- m ;; k" := (bind m (fun x => match x with p => k end))
  (at level 61, p pattern, m at next level, right associativity).

(** ** [_transform_chunk] *)

(** One iteration of [while "<think>" in result]: [None] when the loop
    condition is false, otherwise the new [result] and context. *)
Definition open_step (result : str) (ctx : context) : option (str * context) :=
  match Py.index think_open result with
  | None => None
  | Some idx =>
      if negb (first_think_found ctx)
      then Some (firstn idx result ++ block_open
                   ++ skipn (idx + length think_open) result,
                 {| first_think_found := true |})
      else Some (firstn idx result ++ skipn (idx + length think_open) result,
                 ctx)
  end.

(** The loop itself; [fuel] bounds the iterations, and the result is [None]
    only when the loop is cut short by it. *)
Fixpoint open_loop (fuel : nat) (result : str) (ctx : context)
  : option (str * context) :=
  match open_step result ctx with
  | None => Some (result, ctx)
  | Some (result', ctx') =>
      match fuel with
      | O => None
      | S fuel' => open_loop fuel' result' ctx'
      end
  end.

(** One iteration of [while "</think>" in result]. *)
Definition close_step (is_last_think : bool) (result : str) : option str :=
  match Py.index think_close result with
  | None => None
  | Some idx =>
      if is_last_think
      then Some (firstn idx result ++ block_close
                   ++ skipn (idx + length think_close) result)
      else Some (firstn idx result ++ skipn (idx + length think_close) result)
  end.

Fixpoint close_loop (fuel : nat) (is_last_think : bool) (result : str)
  : option str :=
  match close_step is_last_think result with
  | None => Some result
  | Some result' =>
      match fuel with
      | O => None
      | S fuel' => close_loop fuel' is_last_think result'
      end
  end.

(** [for pattern in [...]: result = result.replace(pattern, '')] *)
Definition strip_leftovers (result : str) : str :=
  fold_left (fun r pattern => Py.replace pattern [] r) leftover_patterns result.

(** The variant of the first loop: the length of the text, plus what the one
    decorating iteration may add. *)
Definition open_measure (result : str) (ctx : context) : nat :=
  length result + (if first_think_found ctx then 0 else 11).

(** The first loop as [_transform_chunk] runs it, with fuel for the whole
    variant. *)
Definition open_phase (chunk : str) (ctx : context) : option (str * context) :=
  open_loop (open_measure chunk ctx) chunk ctx.

Definition close_phase (is_last_think : bool) (result : str) : option str :=
  close_loop (length result) is_last_think result.

Definition transform_chunk (chunk : str) (is_last_think : bool) (ctx : context)
  : option (str * context) :=
  '(result, ctx') <- open_phase chunk ctx ;;
  result <- close_phase is_last_think result ;;
  Some (strip_leftovers result, ctx').

(** ** [_try_finalize_chunks]

    The buffer and the context are the caller's objects, mutated in place:
    both are threaded through and returned with the [finalized] list.  The
    statement [i += 1] that closes the loop body in the source is never
    reached, since every branch ends in [break] or [continue]. *)

Fixpoint try_finalize_loop (fuel : nat) (partial : bool) (i : nat)
    (buffer : list str) (ctx : context) (finalized : list str)
  : option (list str * list str * context) :=
  if i <? length buffer then
    match fuel with
    | O => None
    | S fuel' =>
        chunk <- nth_error buffer i ;;
        if Py.contains think_close chunk then
          if partial && (length buffer <=? i + 5) then
            Some (finalized, buffer, ctx)
          else
            '(_, buffer') <- Py.pop i buffer ;;
            let next_5 := Py.slice i (i + 5) buffer' in
            let has_more_think := existsb (Py.contains think_close) next_5 in
            '(processed, ctx') <-
               transform_chunk chunk (negb has_more_think) ctx ;;
            try_finalize_loop fuel' partial i buffer' ctx'
              (finalized ++ [processed])
        else
          '(_, buffer') <- Py.pop i buffer ;;
          '(processed, ctx') <- transform_chunk chunk false ctx ;;
          try_finalize_loop fuel' partial i buffer' ctx'
            (finalized ++ [processed])
    end
  else Some (finalized, buffer, ctx).

(** Returns [(finalized, buffer, context)]; every iteration that does not
    leave the loop pops a chunk, so [length buffer] iterations are enough. *)
Definition try_finalize_chunks (buffer : list str) (ctx : context)
    (partial : bool) : option (list str * list str * context) :=
  try_finalize_loop (length buffer) partial 0 buffer ctx [].

(** ** [_finalize_all_chunks]

    An async generator that the driver consumes to the end; [yielded] is the
    sequence of values it yields. *)

Fixpoint finalize_all_loop (fuel : nat) (buffer : list str) (ctx : context)
    (yielded : list str) : option (list str * list str * context) :=
  match buffer with
  | [] => Some (yielded, buffer, ctx)
  | _ :: _ =>
      match fuel with
      | O => None
      | S fuel' =>
          '(chunk, buffer') <- Py.pop 0 buffer ;;
          '(chunk', ctx') <- transform_chunk chunk true ctx ;;
          finalize_all_loop fuel' buffer' ctx' (yielded ++ [chunk'])
      end
  end.

Definition finalize_all_chunks (buffer : list str) (ctx : context)
  : option (list str * list str * context) :=
  finalize_all_loop (length buffer) buffer ctx [].

(** ** The line loop of [pipe]

    What [response.aiter_lines()] delivers, classified by the branch of the
    loop body that a raw line takes.  HTTP transport and JSON decoding are
    outside the transducer; a line is described by what they make of it. *)

Inductive upstream_line : Type :=
| NotData                     (* does not start with "data:": continue *)
| DoneMarker                  (* json_str == "[DONE]" *)
| MalformedJson               (* json.loads raises JSONDecodeError *)
| NoChoices                   (* data.get("choices", []) is empty: continue *)
| FinishReason                (* choices[0].get("finish_reason") is truthy *)
| Delta (new_chunk : str)     (* reasoning_content + content *)
| Raises.                     (* any other exception in the loop *)

Inductive error_payload : Type :=
| JSONDecodeError             (* self._format_error("JSONDecodeError", ...) *)
| Traceback.                  (* self._format_exception(e) *)

(** What the generator does, in order.  [ForcedFinalization] is a ghost
    event recorded when [_finalize_all_chunks] is entered. *)
Inductive event : Type :=
| Yield (fragment : str)
| YieldError (e : error_payload)
| ForcedFinalization.

Definition forced_finalization (buffer : list str) (ctx : context)
  : option (list event * list str * context) :=
  '(yielded, buffer', ctx') <- finalize_all_chunks buffer ctx ;;
  Some (ForcedFinalization :: map Yield yielded, buffer', ctx').

(** The [async for raw_line in response.aiter_lines()] loop with the
    [except Exception] handler around it; the result is the trace of events
    and the buffer and context when the generator finishes. *)
Fixpoint pipe_lines (lines : list upstream_line) (chunk_buffer : list str)
    (ctx : context) : option (list event * list str * context) :=
  match lines with
  | [] => Some ([], chunk_buffer, ctx)
  | NotData :: rest => pipe_lines rest chunk_buffer ctx
  | DoneMarker :: _ => forced_finalization chunk_buffer ctx
  | MalformedJson :: _ => Some ([YieldError JSONDecodeError], chunk_buffer, ctx)
  | NoChoices :: rest => pipe_lines rest chunk_buffer ctx
  | FinishReason :: _ => forced_finalization chunk_buffer ctx
  | Delta new_chunk :: rest =>
      '(finalized, chunk_buffer', ctx') <-
         try_finalize_chunks (chunk_buffer ++ [new_chunk]) ctx true ;;
      '(events, chunk_buffer'', ctx'') <- pipe_lines rest chunk_buffer' ctx' ;;
      Some (map Yield finalized ++ events, chunk_buffer'', ctx'')
  | Raises :: _ =>
      '(events, chunk_buffer', ctx') <- forced_finalization chunk_buffer ctx ;;
      Some (events ++ [YieldError Traceback], chunk_buffer', ctx')
  end.

(** [chunk_buffer = []] and [context = {"first_think_found": False}] are
    created per request, once the API key and the response status passed. *)
Definition pipe (lines : list upstream_line)
  : option (list event * list str * context) :=
  pipe_lines lines [] fresh.

(** ** Decisions

    [_transform_chunk] applied to a sequence of chunks, each with the
    [is_last_think] decided for it, in order and through one context. *)

Fixpoint transform_seq (ctx : context) (decisions : list (str * bool))
  : option (list str * context) :=
  match decisions with
  | [] => Some ([], ctx)
  | (chunk, is_last_think) :: decisions' =>
      '(result, ctx1) <- transform_chunk chunk is_last_think ctx ;;
      '(results, ctx2) <- transform_seq ctx1 decisions' ;;
      Some (result :: results, ctx2)
  end.

Definition has_close (chunk : str) : bool := Py.contains think_close chunk.

(** The finalizer in partial mode, as the specification words it: scanning
    from the oldest chunk, a chunk without closing marker is ready and not
    final; a chunk with a closing marker and fewer than 5 chunks after it
    stops the scan; with 5 or more after it, it is ready, and final when none
    of the next 5 has a closing marker. *)
Fixpoint ready_decisions (buffer : list str) : list (str * bool) :=
  match buffer with
  | [] => []
  | chunk :: following =>
      if has_close chunk then
        if length following <? 5 then []
        else (chunk, negb (existsb has_close (firstn 5 following)))
               :: ready_decisions following
      else (chunk, false) :: ready_decisions following
  end.

(** What the scan leaves in the buffer. *)
Fixpoint kept_chunks (buffer : list str) : list str :=
  match buffer with
  | [] => []
  | chunk :: following =>
      if has_close chunk then
        if length following <? 5 then buffer
        else kept_chunks following
      else kept_chunks following
  end.

(** Forced mode: every chunk is final. *)
Definition forced_decisions (buffer : list str) : list (str * bool) :=
  map (fun chunk => (chunk, true)) buffer.

(** The decisions for a whole stream of chunks: those of partial mode, then
    the forced ones for what partial mode never released. *)
Definition stream_decisions (chunks : list str) : list (str * bool) :=
  ready_decisions chunks ++ forced_decisions (kept_chunks chunks).

(** The number of forced finalizations entered in a trace. *)
Fixpoint forced_count (events : list event) : nat :=
  match events with
  | [] => 0
  | ForcedFinalization :: events' => S (forced_count events')
  | _ :: events' => forced_count events'
  end.

(** How the line loop is left: by the first line that ends it, or by the
    upstream running out of lines. *)
Inductive exit_path : Type :=
| ExitDone
| ExitFinishReason
| ExitMalformedJson
| ExitException
| ExitExhausted.

Fixpoint exit_of (lines : list upstream_line) : exit_path :=
  match lines with
  | [] => ExitExhausted
  | DoneMarker :: _ => ExitDone
  | FinishReason :: _ => ExitFinishReason
  | MalformedJson :: _ => ExitMalformedJson
  | Raises :: _ => ExitException
  | (NotData | NoChoices | Delta _) :: rest => exit_of rest
  end.

(** The chunks received before the loop is left. *)
Fixpoint deltas_of (lines : list upstream_line) : list str :=
  match lines with
  | [] => []
  | Delta new_chunk :: rest => new_chunk :: deltas_of rest
  | (NotData | NoChoices) :: rest => deltas_of rest
  | (DoneMarker | FinishReason | MalformedJson | Raises) :: _ => []
  end.

(** [l1] is [l2] with some elements removed: nothing added, order kept. *)
Inductive subseq {A : Type} : list A -> list A -> Prop :=
| subseq_nil : subseq [] []
| subseq_skip (x : A) (l1 l2 : list A) : subseq l1 l2 -> subseq l1 (x :: l2)
| subseq_keep (x : A) (l1 l2 : list A) :
    subseq l1 l2 -> subseq (x :: l1) (x :: l2).

(** The number of calls, along a sequence run through one context, that
    find the flag unset and a ["<think>"] in their chunk: the calls in which
    the first loop inserts the decoration. *)
Fixpoint decorating_calls (ctx : context) (decisions : list (str * bool))
  : option nat :=
  match decisions with
  | [] => Some 0
  | (chunk, is_last_think) :: decisions' =>
      '(_, ctx1) <- transform_chunk chunk is_last_think ctx ;;
      n <- decorating_calls ctx1 decisions' ;;
      Some ((if negb (first_think_found ctx)
                && Py.contains think_open chunk then 1 else 0) + n)
  end.

(** A chunk of plain text: no ["k>"], hence no marker and no leftover
    pattern. *)
Definition plain (chunk : str) : bool := negb (Py.contains (lit "k>") chunk).

(** The lines the loop passes over with [continue]. *)
Definition skipped (line : upstream_line) : bool :=
  match line with
  | NotData | NoChoices => true
  | _ => false
  end.

(** ** The rest of [Pipe]: model list and request preparation *)

Module Builtins.

(** [c.isspace()] for the characters of the model (code points below 256):
    tab to carriage return, the four separators 28 to 31, the space, next
    line (133) and the no-break space (160). *)
Definition isspace (c : ascii) : bool :=
  let n := nat_of_ascii c in
  ((9 <=? n) && (n <=? 13)) || ((28 <=? n) && (n <=? 32))
  || (n =? 133) || (n =? 160).

(** [s.lstrip()], [s.rstrip()] and [s.strip()] *)
Fixpoint lstrip (s : str) : str :=
  match s with
  | [] => []
  | c :: s' => if isspace c then lstrip s' else s
  end.

Definition rstrip (s : str) : str := rev (lstrip (rev s)).

Definition strip (s : str) : str := rstrip (lstrip s).

(** [s.split(sep)] for a separator of one character: never empty, one piece
    more than there are separators. *)
Fixpoint split (sep : ascii) (s : str) : list str :=
  match s with
  | [] => [[]]
  | c :: s' =>
      if Ascii.eqb c sep then [] :: split sep s'
      else match split sep s' with
           | piece :: pieces => (c :: piece) :: pieces
           | [] => [[c]]
           end
  end.

(** [sep.join(pieces)] *)
Fixpoint join (sep : ascii) (pieces : list str) : str :=
  match pieces with
  | [] => []
  | [piece] => piece
  | piece :: pieces' => piece ++ sep :: join sep pieces'
  end.

(** [s.split(sep, 1)]: cut at the first separator only. *)
Definition split_once (sep : ascii) (s : str) : list str :=
  match Py.index [sep] s with
  | None => [s]
  | Some i => [firstn i s; skipn (i + 1) s]
  end.

(** [l.insert(i, x)] for [0 <= i]: past the end it appends. *)
Definition insert {A : Type} (i : nat) (x : A) (l : list A) : list A :=
  firstn i l ++ x :: skipn i l.

End Builtins.

(** An entry of the list [pipes] returns: [{"id": ..., "name": ...}]. *)
Record pipe_entry : Type := { entry_id : str; entry_name : str }.

(** [pipes]: one entry per comma-separated model name of the valve
    [API_MODEL]. *)
Definition pipes (API_MODEL : str) : list pipe_entry :=
  map (fun m => {| entry_id := Builtins.strip m;
                   entry_name := Builtins.strip m |})
      (Builtins.split ","%char API_MODEL).

(** [body["model"].split(".", 1)[-1]] *)
Definition request_model_id (model : str) : str :=
  last (Builtins.split_once "."%char model) [].

(** A chat message: the dict [{"role": ..., "content": ...}]. *)
Record message : Type := { role : str; content : str }.

Definition str_eqb (a b : str) : bool :=
  if list_eq_dec ascii_dec a b then true else false.

(** ["assistant" if messages[i]["role"] == "user" else "user"] *)
Definition alt_role (r : str) : str :=
  if str_eqb r (lit "user") then lit "assistant" else lit "user".

Definition unfinished (r : str) : message :=
  {| role := alt_role r; content := lit "[Unfinished thinking]" |}.

(** The body of [for i in range(len(messages) - 1, 0, -1)], from index [i]
    down to 1; the range is fixed before the first insertion. *)
Fixpoint correct_roles_from (i : nat) (messages : list message)
  : list message :=
  match i with
  | O => messages
  | S i' =>
      let messages' :=
        match nth_error messages i, nth_error messages i' with
        | Some m, Some m' =>
            if str_eqb (role m) (role m')
            then Builtins.insert i (unfinished (role m)) messages
            else messages
        | _, _ => messages
        end in
      correct_roles_from i' messages'
  end.

Definition correct_roles (messages : list message) : list message :=
  correct_roles_from (length messages - 1) messages.

(** No two neighbours of a message list have the same role. *)
Fixpoint roles_alternate (messages : list message) : Prop :=
  match messages with
  | [] => True
  | m :: rest =>
      match rest with
      | [] => True
      | m' :: _ => role m <> role m'
      end
      /\ roles_alternate rest
  end.

(** The number of neighbouring pairs with the same role. *)
Fixpoint same_role_pairs (messages : list message) : nat :=
  match messages with
  | [] => 0
  | m :: rest =>
      match rest with
      | [] => 0
      | m' :: _ => if str_eqb (role m) (role m') then 1 else 0
      end
      + same_role_pairs rest
  end.

(** The list with a filler put between every two neighbours of the same
    role, front to back. *)
Fixpoint with_fillers (messages : list message) : list message :=
  match messages with
  | [] => []
  | m :: rest =>
      m :: match rest with
           | [] => []
           | m' :: _ =>
               if str_eqb (role m') (role m)
               then unfinished (role m') :: with_fillers rest
               else with_fillers rest
           end
  end.

(** A text that neither begins nor ends with a white space character. *)
Definition trimmed (s : str) : Prop :=
  match s with [] => True | c :: _ => Builtins.isspace c = false end
  /\ match rev s with [] => True | c :: _ => Builtins.isspace c = false end.

(** ** The LaTeX spacing filter ([latex_display_optimization.py])

    The part of Python's [re] that the four patterns of
    [_add_spaces_to_latex] use, as a backtracking matcher. *)

Module Re.

Inductive regex : Type :=
| Lit (c : ascii)           (* an escaped character, such as \$ or \[ *)
| LazyDots                  (* .*? : as few characters as possible, none of
                               them a line feed *)
| Seq (r1 r2 : regex)
| Group (r : regex)         (* ( ... ), the group 1 of the patterns *)
| NotBehind (c : ascii)     (* (?<!c) *)
| NotAhead (c : ascii).     (* (?!c) *)

(** Where an attempt stands: the character before the position, the number
    of characters matched since the attempt began, the text ahead, and the
    span of group 1 once it is closed. *)
Record state : Type :=
  { prev : option ascii; pos : nat; ahead : str; group1 : option (nat * nat) }.

(** [.*?] followed by [k]: [k] is tried first, and one more character is
    taken only when [k] fails. *)
Fixpoint lazy_dots (before : option ascii) (n : nat) (s : str)
    (g : option (nat * nat)) (k : state -> option state) : option state :=
  match k {| prev := before; pos := n; ahead := s; group1 := g |} with
  | Some st => Some st
  | None =>
      match s with
      | [] => None
      | c :: s' =>
          if Ascii.eqb c nl then None
          else lazy_dots (Some c) (S n) s' g k
      end
  end.

(** The matcher, with the rest of the pattern as continuation [k]; the
    result is the state at the end of the first match in backtracking
    order. *)
Fixpoint run (r : regex) (st : state) (k : state -> option state)
  : option state :=
  match r with
  | Lit c =>
      match ahead st with
      | d :: s' =>
          if Ascii.eqb c d
          then k {| prev := Some d; pos := S (pos st); ahead := s';
                    group1 := group1 st |}
          else None
      | [] => None
      end
  | LazyDots => lazy_dots (prev st) (pos st) (ahead st) (group1 st) k
  | Seq r1 r2 => run r1 st (fun st' => run r2 st' k)
  | Group r' =>
      run r' st
        (fun st' =>
           k {| prev := prev st'; pos := pos st'; ahead := ahead st';
                group1 := Some (pos st, pos st') |})
  | NotBehind c =>
      match prev st with
      | Some d => if Ascii.eqb c d then None else k st
      | None => k st
      end
  | NotAhead c =>
      match ahead st with
      | d :: _ => if Ascii.eqb c d then None else k st
      | [] => k st
      end
  end.

(** An attempt at the position whose text ahead is [s]. *)
Definition match_here (r : regex) (before : option ascii) (s : str)
  : option state :=
  run r {| prev := before; pos := 0; ahead := s; group1 := None |} Some.

(** The template [r" \1 "] expanded for a match on the text [s]; a group
    that took no part gives the empty text. *)
Definition expand (st : state) (s : str) : str :=
  " "%char
  :: match group1 st with
     | Some (a, b) => firstn (b - a) (skipn a s)
     | None => []
     end
     ++ [" "%char].

(** [re.sub(r, r" \1 ", s)]: matches are looked for from left to right, each
    search starting where the last match ended; [skip] counts the characters
    of the current match still to pass over.  The four patterns never match
    the empty text; the clauses for an empty match are there for the
    function to be total. *)
Fixpoint sub_from (r : regex) (skip : nat) (before : option ascii) (s : str)
  : str :=
  match s with
  | [] =>
      match skip with
      | O => match match_here r before [] with
             | Some st => expand st []
             | None => []
             end
      | S _ => []
      end
  | c :: s' =>
      match skip with
      | S k => sub_from r k (Some c) s'
      | O =>
          match match_here r before s with
          | Some st =>
              expand st s
                ++ match pos st with
                   | O => c :: sub_from r 0 (Some c) s'
                   | S k => sub_from r k (Some c) s'
                   end
          | None => c :: sub_from r 0 (Some c) s'
          end
      end
  end.

Definition sub (r : regex) (s : str) : str := sub_from r 0 None s.

(** What a pattern does between two states, without the search order. *)
Inductive steps : regex -> state -> state -> Prop :=
| steps_lit (c : ascii) (st : state) (s' : str) :
    ahead st = c :: s' ->
    steps (Lit c) st
      {| prev := Some c; pos := S (pos st); ahead := s';
         group1 := group1 st |}
| steps_dots_stop (st : state) : steps LazyDots st st
| steps_dots_more (st st' : state) (c : ascii) (s' : str) :
    ahead st = c :: s' ->
    c <> nl ->
    steps LazyDots
      {| prev := Some c; pos := S (pos st); ahead := s';
         group1 := group1 st |} st' ->
    steps LazyDots st st'
| steps_seq (r1 r2 : regex) (st st1 st2 : state) :
    steps r1 st st1 -> steps r2 st1 st2 -> steps (Seq r1 r2) st st2
| steps_group (r : regex) (st st' : state) :
    steps r st st' ->
    steps (Group r) st
      {| prev := prev st'; pos := pos st'; ahead := ahead st';
         group1 := Some (pos st, pos st') |}
| steps_not_behind (c : ascii) (st : state) :
    prev st <> Some c -> steps (NotBehind c) st st
| steps_not_ahead (c : ascii) (st : state) :
    (forall s', ahead st <> c :: s') -> steps (NotAhead c) st st.

End Re.

(** [r"(\$\$.*?\$\$)"] *)
Definition display_dollars : Re.regex :=
  Re.Group
    (Re.Seq (Re.Lit "$") (Re.Seq (Re.Lit "$")
       (Re.Seq Re.LazyDots (Re.Seq (Re.Lit "$") (Re.Lit "$"))))).

(** [r"(?<!\$)(\$.*?\$)(?!\$)"] *)
Definition inline_dollars : Re.regex :=
  Re.Seq (Re.NotBehind "$")
    (Re.Seq
       (Re.Group (Re.Seq (Re.Lit "$") (Re.Seq Re.LazyDots (Re.Lit "$"))))
       (Re.NotAhead "$")).

(** [r"(\\\[.*?\\\])"] *)
Definition display_brackets : Re.regex :=
  Re.Group
    (Re.Seq (Re.Lit "\") (Re.Seq (Re.Lit "[")
       (Re.Seq Re.LazyDots (Re.Seq (Re.Lit "\") (Re.Lit "]"))))).

(** [r"(\\\(.*?\\\))"] *)
Definition inline_parens : Re.regex :=
  Re.Group
    (Re.Seq (Re.Lit "\") (Re.Seq (Re.Lit "(")
       (Re.Seq Re.LazyDots (Re.Seq (Re.Lit "\") (Re.Lit ")"))))).

Definition add_spaces_to_latex (text : str) : str :=
  let text := Re.sub display_dollars text in
  let text := Re.sub inline_dollars text in
  let text := Re.sub display_brackets text in
  let text := Re.sub inline_parens text in
  text.

(** The value under ["content"]: a text, or anything else (absent, [None],
    a list of parts). *)
Inductive content_value : Type :=
| Text (s : str)
| NotText.

(** A message of the body given to [outlet]; [out_role] is
    [message.get("role")]. *)
Record out_message : Type :=
  { out_role : option str; out_content : content_value }.

(** [outlet] on [body.get("messages", [])]; the other keys of the body are
    not read. *)
Definition outlet (enabled : bool) (messages : list out_message)
  : list out_message :=
  if negb enabled then messages
  else
    map (fun message =>
           match out_role message, out_content message with
           | Some r, Text s =>
               if str_eqb r (lit "assistant")
               then {| out_role := out_role message;
                       out_content := Text (add_spaces_to_latex s) |}
               else message
           | _, _ => message
           end)
        messages.

(** A text without its space characters. *)
Definition despace (s : str) : str :=
  filter (fun c => negb (Ascii.eqb c " ")) s.

(** Every match of [r] begins with the character [first], and group 1 is
    the whole match. *)
Definition matches_whole (first : ascii) (r : Re.regex) : Prop :=
  forall before s st,
    Re.match_here r before s = Some st ->
    exists m t,
      s = first :: m ++ t
      /\ Re.pos st = S (length m)
      /\ Re.group1 st = Some (0, S (length m)).

(** The character before the position reached after the text [a]. *)
Definition after (before : option ascii) (a : str) : option ascii :=
  fold_left (fun _ c => Some c) a before.

(** The shape of three of the patterns: two opening characters, [.*?], two
    closing characters, all in group 1. *)
Definition delimited (o1 o2 c1 c2 : ascii) : Re.regex :=
  Re.Group
    (Re.Seq (Re.Lit o1) (Re.Seq (Re.Lit o2)
       (Re.Seq Re.LazyDots (Re.Seq (Re.Lit c1) (Re.Lit c2))))).

(** The characters a formula may be made of here: no line feed, no dollar
    sign, no backslash. *)
Definition formula_char (c : ascii) : Prop :=
  c <> nl /\ c <> "$"%char /\ c <> "\"%char.

(** Text around a formula: no dollar sign and no backslash. *)
Definition no_delimiter (a : str) : Prop :=
  ~ In "$"%char a /\ ~ In "\"%char a.

(** The shape of the pattern for inline dollars: an opening and a closing
    character around [.*?], in group 1, with one character that may stand
    neither before nor after the match. *)
Definition guarded (g o c : ascii) : Re.regex :=
  Re.Seq (Re.NotBehind g)
    (Re.Seq (Re.Group (Re.Seq (Re.Lit o) (Re.Seq Re.LazyDots (Re.Lit c))))
       (Re.NotAhead g)).

(** ** Neighbouring characters

    [pairs_from P prev s] is the number of characters [b] of [s] that stand
    directly after a character [a] with [P a b]; [prev] is the character
    before [s], if there is one. *)
Fixpoint pairs_from (P : ascii -> ascii -> bool) (prev : option ascii)
    (s : str) : nat :=
  match s with
  | [] => 0
  | b :: s' =>
      match prev with
      | Some a => if P a b then 1 else 0
      | None => 0
      end + pairs_from P (Some b) s'
  end.

(** [a] directly followed by [b]. *)
Definition pair_of (a b : ascii) : ascii -> ascii -> bool :=
  fun x y => Ascii.eqb a x && Ascii.eqb b y.

(** A character of ["</think>"]: the markers and the leftover patterns are
    made of these. *)
Definition marker_char (c : ascii) : bool := existsb (Ascii.eqb c) think_close.

(** Scanning a text for an [R] that a backtick announces: [armed] says that
    a backtick stands before, with nothing but characters of ["</think>"]
    since.  [armed_rs] is the number of [R] met while armed, as in
    ["`R"], ["`k>R"] or ["`<think>R"]. *)
Definition arm (armed : bool) (c : ascii) : bool :=
  if Ascii.eqb "`" c then true else marker_char c && armed.

Fixpoint armed_rs (armed : bool) (s : str) : nat :=
  match s with
  | [] => 0
  | c :: s' =>
      (if armed && Ascii.eqb "R" c then 1 else 0) + armed_rs (arm armed c) s'
  end.



(** * Properties *)

(** ** Occurrences of a pattern *)

Lemma startswith_length (p s : str) :
  Py.startswith p s = true -> length p <= length s.
Proof.
  revert s. induction p as [|a q IH]; intros [|b s] H; simpl in *;
    try discriminate H; try lia.
  apply andb_true_iff in H. destruct H as [_ H]. apply IH in H. lia.
Qed.

Lemma startswith_app (p s : str) :
  Py.startswith p s = true -> s = p ++ skipn (length p) s.
Proof.
  revert s. induction p as [|a q IH]; intros [|b s] H; simpl in *;
    try reflexivity; try discriminate H.
  apply andb_true_iff in H. destruct H as [Hab H].
  apply Ascii.eqb_eq in Hab. subst b. f_equal. now apply IH.
Qed.

Lemma startswith_refl_app (p s : str) : Py.startswith p (p ++ s) = true.
Proof.
  induction p as [|a q IH]; simpl; [reflexivity|].
  now rewrite Ascii.eqb_refl, IH.
Qed.

Section Occurrences.

Variable p : str.

Lemma index_cons (c : ascii) (s : str) :
  Py.index p (c :: s) =
  if Py.startswith p (c :: s) then Some 0 else option_map S (Py.index p s).
Proof. reflexivity. Qed.

Lemma index_bound (s : str) (i : nat) :
  Py.index p s = Some i -> i + length p <= length s.
Proof.
  revert i. induction s as [|c s IH]; intros i H.
  - simpl in H. destruct (Py.startswith p []) eqn:E; [|discriminate].
    injection H as <-. apply startswith_length in E. simpl in *. lia.
  - rewrite index_cons in H.
    destruct (Py.startswith p (c :: s)) eqn:E.
    + injection H as <-. apply startswith_length in E. simpl in *. lia.
    + destruct (Py.index p s) as [j|]; [|discriminate].
      injection H as <-. specialize (IH j eq_refl). simpl. lia.
Qed.

(** At the index found, the text reads: what precedes, the pattern, the
    rest. *)
Lemma index_split (s : str) (i : nat) :
  Py.index p s = Some i ->
  s = firstn i s ++ p ++ skipn (i + length p) s.
Proof.
  revert i. induction s as [|c s IH]; intros i H.
  - simpl in H. destruct (Py.startswith p []) eqn:E; [|discriminate].
    injection H as <-. now apply startswith_app in E.
  - rewrite index_cons in H.
    destruct (Py.startswith p (c :: s)) eqn:E.
    + injection H as <-. now apply startswith_app in E.
    + destruct (Py.index p s) as [j|]; [|discriminate].
      injection H as <-. simpl. f_equal. now apply IH.
Qed.

Lemma index_none_startswith (s : str) :
  Py.index p s = None -> Py.startswith p s = false.
Proof.
  destruct s; simpl; destruct (Py.startswith p _); congruence.
Qed.

Lemma index_none_tail (c : ascii) (s : str) :
  Py.index p (c :: s) = None -> Py.index p s = None.
Proof.
  rewrite index_cons. destruct (Py.startswith p (c :: s)); [discriminate|].
  now destruct (Py.index p s).
Qed.

(** [replace] leaves a text without occurrence of [old] as it is. *)
Lemma replace_absent (new s : str) :
  Py.index p s = None -> Py.replace p new s = s.
Proof.
  unfold Py.replace. induction s as [|c s IH]; intros H; [reflexivity|].
  simpl. pose proof (index_none_startswith _ H) as E. simpl in E.
  rewrite E. f_equal. apply IH. exact (index_none_tail _ _ H).
Qed.

End Occurrences.

Lemma startswith_empty (p : str) : p <> [] -> Py.startswith p [] = false.
Proof. destruct p; [congruence|reflexivity]. Qed.

Section MoreOccurrences.

Variable p : str.

Lemma index_unfold (s : str) :
  Py.index p s =
  if Py.startswith p s then Some 0
  else match s with
       | [] => None
       | _ :: s' => option_map S (Py.index p s')
       end.
Proof. destruct s; reflexivity. Qed.

Lemma index_present (u v : str) :
  exists j, Py.index p (u ++ p ++ v) = Some j.
Proof.
  induction u as [|c u [j IH]].
  - exists 0. cbn [app]. rewrite index_unfold.
    now rewrite startswith_refl_app.
  - cbn [app]. rewrite index_cons.
    destruct (Py.startswith p _); [now exists 0|].
    rewrite IH. now exists (S j).
Qed.

(** A text without [p] has no longer pattern around [p] either. *)
Lemma index_none_around (a b s : str) :
  Py.index p s = None -> Py.index (a ++ p ++ b) s = None.
Proof.
  intros Hp. destruct (Py.index (a ++ p ++ b) s) as [i|] eqn:E;
    [|reflexivity].
  apply index_split in E.
  destruct (index_present (firstn i s ++ a)
              (b ++ skipn (i + length (a ++ p ++ b)) s)) as [j Hj].
  rewrite <- !app_assoc in Hj. rewrite <- !app_assoc in E.
  rewrite <- E in Hj. congruence.
Qed.

Lemma index_none_app_r (u v : str) :
  Py.index p (u ++ v) = None -> Py.index p v = None.
Proof.
  induction u as [|c u IH]; intros H; [exact H|].
  apply IH. exact (index_none_tail _ _ _ H).
Qed.

Lemma index_none_skipn (n : nat) (s : str) :
  Py.index p s = None -> Py.index p (skipn n s) = None.
Proof.
  intros H. apply (index_none_app_r (firstn n s)).
  now rewrite firstn_skipn.
Qed.

Lemma index_none_app_l (u v : str) :
  Py.index p (u ++ v) = None -> Py.index p u = None.
Proof.
  induction u as [|c u IH]; intros H.
  - cbn [app] in H. rewrite index_unfold in H. rewrite index_unfold.
    destruct p as [|a q]; [discriminate H|reflexivity].
  - cbn [app] in H. rewrite index_cons in H. rewrite index_cons.
    destruct (Py.startswith p (c :: u)) eqn:E.
    + apply startswith_app in E.
      assert (Py.startswith p (c :: u ++ v) = true) as E'.
      { change (c :: u ++ v) with ((c :: u) ++ v). rewrite E.
        rewrite <- app_assoc. apply startswith_refl_app. }
      rewrite E' in H. discriminate H.
    + destruct (Py.startswith p (c :: u ++ v)); [discriminate H|].
      destruct (Py.index p (u ++ v)); [discriminate H|].
      now rewrite IH.
Qed.

Lemma index_none_firstn (n : nat) (s : str) :
  Py.index p s = None -> Py.index p (firstn n s) = None.
Proof.
  intros H. apply (index_none_app_l _ (skipn n s)).
  now rewrite firstn_skipn.
Qed.

(** Nothing of [p] occurs before the index found. *)
Lemma index_before (s : str) :
  p <> [] ->
  forall i, Py.index p s = Some i -> Py.index p (firstn i s) = None.
Proof.
  intros Hp. induction s as [|c s IH]; intros i H.
  - destruct i; rewrite index_unfold; now rewrite startswith_empty.
  - rewrite index_cons in H.
    destruct (Py.startswith p (c :: s)) eqn:E.
    + injection H as <-. cbn [firstn]. rewrite index_unfold.
      now rewrite startswith_empty.
    + destruct (Py.index p s) as [j|] eqn:Ej; [|discriminate H].
      injection H as <-. cbn [firstn]. rewrite index_cons.
      rewrite (IH j eq_refl).
      destruct (Py.startswith p (c :: firstn j s)) eqn:E'; [|reflexivity].
      apply startswith_app in E'.
      assert (Py.startswith p (c :: s) = true) as E''.
      { rewrite <- (firstn_skipn j s).
        change (c :: firstn j s ++ skipn j s)
          with ((c :: firstn j s) ++ skipn j s).
        rewrite E', <- app_assoc. apply startswith_refl_app. }
      congruence.
Qed.

Lemma occurrences_absent (s : str) :
  Py.index p s = None -> Py.occurrences p s = 0.
Proof.
  induction s as [|c s IH]; intros H.
  - simpl. now rewrite (index_none_startswith _ _ H).
  - cbn [Py.occurrences]. rewrite (index_none_startswith _ _ H).
    now rewrite IH by exact (index_none_tail _ _ _ H).
Qed.

Lemma occurrences_app_ge (u v : str) :
  Py.occurrences p v <= Py.occurrences p (u ++ v).
Proof.
  induction u as [|c u IH]; [reflexivity|].
  cbn [app Py.occurrences]. lia.
Qed.

(** A character foreign to [p] separates the occurrences of [p]. *)
Variable x : ascii.
Hypothesis foreign : ~ In x p.

Lemma startswith_foreign (u v : str) :
  Py.startswith p (u ++ x :: v) = Py.startswith p u.
Proof.
  revert foreign u. clear. induction p as [|a q IH]; intros Hx u;
    [reflexivity|].
  destruct u as [|b u]; cbn [app Py.startswith].
  - destruct (Ascii.eqb a x) eqn:E; [|reflexivity].
    apply Ascii.eqb_eq in E. subst. exfalso. apply Hx. now left.
  - rewrite IH; [reflexivity|]. intros Hin. apply Hx. now right.
Qed.

Lemma index_foreign (u v : str) :
  Py.index p u = None ->
  Py.index p (u ++ x :: v)
  = option_map (fun j => length u + 1 + j) (Py.index p v).
Proof.
  induction u as [|c u IH]; intros H.
  - pose proof (startswith_foreign [] v) as E. cbn [app] in *.
    rewrite index_cons, E, (index_none_startswith _ _ H).
    destruct (Py.index p v); reflexivity.
  - pose proof (startswith_foreign (c :: u) v) as E. cbn [app] in *.
    rewrite index_cons, E, (index_none_startswith _ _ H).
    rewrite IH by exact (index_none_tail _ _ _ H).
    destruct (Py.index p v); reflexivity.
Qed.

Lemma occurrences_foreign (u v : str) :
  Py.occurrences p (u ++ x :: v)
  = Py.occurrences p u + Py.occurrences p v.
Proof.
  induction u as [|c u IH].
  - pose proof (startswith_foreign [] v) as E. cbn [app] in *.
    cbn [Py.occurrences]. rewrite E. lia.
  - pose proof (startswith_foreign (c :: u) v) as E. cbn [app] in *.
    cbn [Py.occurrences]. rewrite E, IH. lia.
Qed.

End MoreOccurrences.

(** An occurrence counts on top of those after it. *)
Lemma occurrences_here (p u v : str) :
  p <> [] ->
  S (Py.occurrences p v) <= Py.occurrences p (u ++ p ++ v).
Proof.
  intros Hp.
  apply Nat.le_trans with (Py.occurrences p (p ++ v));
    [|apply occurrences_app_ge].
  pose proof (startswith_refl_app p v) as E.
  destruct p as [|a q]; [congruence|].
  change ((a :: q) ++ v) with (a :: q ++ v) in *.
  cbn [Py.occurrences]. rewrite E.
  pose proof (occurrences_app_ge (a :: q) q v). simpl. lia.
Qed.

(** ** Subsequences *)

Lemma subseq_refl {A : Type} (l : list A) : subseq l l.
Proof. induction l; [apply subseq_nil|now apply subseq_keep]. Qed.

Lemma subseq_trans {A : Type} (l1 l2 l3 : list A) :
  subseq l1 l2 -> subseq l2 l3 -> subseq l1 l3.
Proof.
  intros H12 H23. revert l1 H12.
  induction H23 as [|x l2 l3 H23 IH|x l2 l3 H23 IH]; intros l1 H12.
  - exact H12.
  - constructor. now apply IH.
  - inversion H12; subst.
    + apply subseq_skip. now apply IH.
    + apply subseq_keep. now apply IH.
Qed.

Lemma subseq_drop_middle {A : Type} (u m v : list A) :
  subseq (u ++ v) (u ++ m ++ v).
Proof.
  induction u as [|x u IH]; cbn [app].
  - induction m as [|y m IH]; cbn [app]; [apply subseq_refl|].
    now apply subseq_skip.
  - now apply subseq_keep.
Qed.

(** ** Termination of [_transform_chunk] *)

Lemma open_step_decreases (result result' : str) (ctx ctx' : context) :
  open_step result ctx = Some (result', ctx') ->
  open_measure result' ctx' < open_measure result ctx.
Proof.
  unfold open_step, open_measure.
  destruct (Py.index think_open result) as [idx|] eqn:E; [|discriminate].
  apply index_bound in E. change (length think_open) with 7 in *.
  destruct ctx as [[|]]; cbn [negb first_think_found]; intros H;
    injection H as <- <-; cbn [first_think_found];
    rewrite length_app; cbn [length]; rewrite length_firstn, length_skipn;
    lia.
Qed.

Lemma open_loop_total (fuel : nat) :
  forall (result : str) (ctx : context),
    open_measure result ctx <= fuel ->
    exists result' ctx',
      open_loop fuel result ctx = Some (result', ctx')
      /\ Py.index think_open result' = None.
Proof.
  induction fuel as [|fuel IH]; intros result ctx Hm; simpl;
    destruct (open_step result ctx) as [[r c]|] eqn:E.
  - apply open_step_decreases in E. lia.
  - exists result, ctx. split; [reflexivity|].
    unfold open_step in E. destruct (Py.index think_open result); [|reflexivity].
    destruct (negb _); discriminate.
  - apply IH. apply open_step_decreases in E. lia.
  - exists result, ctx. split; [reflexivity|].
    unfold open_step in E. destruct (Py.index think_open result); [|reflexivity].
    destruct (negb _); discriminate.
Qed.

Lemma close_step_decreases (is_last_think : bool) (result result' : str) :
  close_step is_last_think result = Some result' ->
  length result' < length result.
Proof.
  unfold close_step.
  destruct (Py.index think_close result) as [idx|] eqn:E; [|discriminate].
  apply index_bound in E. change (length think_close) with 8 in *.
  destruct is_last_think; intros H; injection H as <-;
    rewrite length_app; cbn [length]; rewrite length_firstn, length_skipn;
    lia.
Qed.

Lemma close_loop_total (is_last_think : bool) (fuel : nat) :
  forall result : str,
    length result <= fuel ->
    exists result',
      close_loop fuel is_last_think result = Some result'
      /\ Py.index think_close result' = None.
Proof.
  induction fuel as [|fuel IH]; intros result Hm; simpl;
    destruct (close_step is_last_think result) as [r|] eqn:E.
  - apply close_step_decreases in E. lia.
  - exists result. split; [reflexivity|].
    unfold close_step in E.
    destruct (Py.index think_close result); [|reflexivity].
    destruct is_last_think; discriminate.
  - apply IH. apply close_step_decreases in E. lia.
  - exists result. split; [reflexivity|].
    unfold close_step in E.
    destruct (Py.index think_close result); [|reflexivity].
    destruct is_last_think; discriminate.
Qed.

Lemma open_phase_total (chunk : str) (ctx : context) :
  exists result ctx',
    open_phase chunk ctx = Some (result, ctx')
    /\ Py.index think_open result = None.
Proof. apply open_loop_total. reflexivity. Qed.

Lemma close_phase_total (is_last_think : bool) (result : str) :
  exists result',
    close_phase is_last_think result = Some result'
    /\ Py.index think_close result' = None.
Proof. apply close_loop_total. reflexivity. Qed.

Lemma transform_chunk_total (chunk : str) (is_last_think : bool)
    (ctx : context) :
  exists result ctx', transform_chunk chunk is_last_think ctx
                      = Some (result, ctx').
Proof.
  unfold transform_chunk.
  destruct (open_phase_total chunk ctx) as (r1 & c1 & -> & _). cbn [bind].
  destruct (close_phase_total is_last_think r1) as (r2 & -> & _). cbn [bind].
  eauto.
Qed.

(** ** The two finalizers as sequences of decisions *)

Lemma transform_seq_total (decisions : list (str * bool)) :
  forall ctx, exists results ctx',
    transform_seq ctx decisions = Some (results, ctx')
    /\ length results = length decisions.
Proof.
  induction decisions as [|[chunk is_last] ds IH]; intros ctx; simpl.
  - exists [], ctx. split; reflexivity.
  - destruct (transform_chunk_total chunk is_last ctx) as (r & c1 & ->).
    cbn [bind]. destruct (IH c1) as (rs & c2 & -> & Hlen). cbn [bind].
    exists (r :: rs), c2. split; [reflexivity|]. simpl. now rewrite Hlen.
Qed.

Lemma transform_seq_app (ds1 ds2 : list (str * bool)) :
  forall ctx,
    transform_seq ctx (ds1 ++ ds2) =
    '(r1, ctx1) <- transform_seq ctx ds1 ;;
    '(r2, ctx2) <- transform_seq ctx1 ds2 ;;
    Some (r1 ++ r2, ctx2).
Proof.
  induction ds1 as [|[chunk is_last] ds1 IH]; intros ctx; simpl.
  - destruct (transform_seq ctx ds2) as [[r2 c2]|]; reflexivity.
  - destruct (transform_chunk chunk is_last ctx) as [[r c1]|]; [|reflexivity].
    cbn [bind]. rewrite IH.
    destruct (transform_seq c1 ds1) as [[r1 c1']|]; [|reflexivity].
    cbn [bind]. destruct (transform_seq c1' ds2) as [[r2 c2]|]; reflexivity.
Qed.

Lemma try_finalize_loop_partial (fuel : nat) :
  forall (buffer : list str) (ctx : context) (finalized : list str),
    length buffer <= fuel ->
    try_finalize_loop fuel true 0 buffer ctx finalized =
    '(results, ctx') <- transform_seq ctx (ready_decisions buffer) ;;
    Some (finalized ++ results, kept_chunks buffer, ctx').
Proof.
  induction fuel as [|fuel IH]; intros [|chunk following] ctx finalized Hlen;
    simpl in Hlen; try lia.
  - simpl. now rewrite app_nil_r.
  - simpl. now rewrite app_nil_r.
  - cbn [try_finalize_loop length Nat.ltb Nat.leb nth_error bind Py.pop
         ready_decisions kept_chunks].
    unfold has_close.
    destruct (Py.contains think_close chunk) eqn:Hc.
    + cbn [andb Nat.add]. unfold Nat.ltb.
      destruct (length following <=? 4) eqn:H5.
      * cbn [transform_seq bind]. now rewrite app_nil_r.
      * unfold Py.slice. cbn [skipn transform_seq].
        replace (0 + 5 - 0) with 5 by reflexivity.
        destruct (transform_chunk chunk _ ctx) as [[r c1]|]; [|reflexivity].
        cbn [bind]. rewrite IH by lia.
        destruct (transform_seq c1 _) as [[rs c2]|]; [|reflexivity].
        cbn [bind]. now rewrite <- app_assoc.
    + cbn [transform_seq].
      destruct (transform_chunk chunk false ctx) as [[r c1]|]; [|reflexivity].
      cbn [bind]. rewrite IH by lia.
      destruct (transform_seq c1 _) as [[rs c2]|]; [|reflexivity].
      cbn [bind]. now rewrite <- app_assoc.
Qed.

Lemma try_finalize_chunks_partial (buffer : list str) (ctx : context) :
  try_finalize_chunks buffer ctx true =
  '(results, ctx') <- transform_seq ctx (ready_decisions buffer) ;;
  Some (results, kept_chunks buffer, ctx').
Proof.
  unfold try_finalize_chunks. now rewrite try_finalize_loop_partial.
Qed.

Lemma finalize_all_loop_forced (fuel : nat) :
  forall (buffer : list str) (ctx : context) (yielded : list str),
    length buffer <= fuel ->
    finalize_all_loop fuel buffer ctx yielded =
    '(results, ctx') <- transform_seq ctx (forced_decisions buffer) ;;
    Some (yielded ++ results, [], ctx').
Proof.
  induction fuel as [|fuel IH]; intros [|chunk following] ctx yielded Hlen;
    simpl in Hlen; try lia.
  - simpl. now rewrite app_nil_r.
  - simpl. now rewrite app_nil_r.
  - cbn [finalize_all_loop Py.pop bind forced_decisions map transform_seq].
    destruct (transform_chunk chunk true ctx) as [[r c1]|]; [|reflexivity].
    cbn [bind]. rewrite IH by lia. fold (forced_decisions following).
    destruct (transform_seq c1 _) as [[rs c2]|]; [|reflexivity].
    cbn [bind]. now rewrite <- app_assoc.
Qed.

Lemma finalize_all_chunks_forced (buffer : list str) (ctx : context) :
  finalize_all_chunks buffer ctx =
  '(results, ctx') <- transform_seq ctx (forced_decisions buffer) ;;
  Some (results, [], ctx').
Proof.
  unfold finalize_all_chunks. now rewrite finalize_all_loop_forced.
Qed.

(** ** The scan of partial mode *)

Lemma kept_chunks_suffix (buffer : list str) :
  exists k, kept_chunks buffer = skipn k buffer
            /\ map fst (ready_decisions buffer) = firstn k buffer.
Proof.
  induction buffer as [|chunk following (k & Hk & Hr)].
  - exists 0. split; reflexivity.
  - simpl. destruct (has_close chunk).
    + destruct (length following <? 5).
      * exists 0. split; reflexivity.
      * exists (S k). simpl. now rewrite Hr.
    + exists (S k). simpl. now rewrite Hr.
Qed.

Lemma ready_decisions_app (buffer later : list str) :
  ready_decisions (buffer ++ later) =
  ready_decisions buffer ++ ready_decisions (kept_chunks buffer ++ later).
Proof.
  induction buffer as [|chunk following IH]; [reflexivity|].
  cbn [ready_decisions kept_chunks].
  destruct (has_close chunk) eqn:Hc.
  - destruct (length following <? 5) eqn:H5.
    + cbn [app ready_decisions]. now rewrite Hc.
    + apply Nat.ltb_ge in H5.
      cbn [app ready_decisions]. rewrite Hc, length_app.
      replace (length following + length later <? 5) with false
        by (symmetry; apply Nat.ltb_ge; lia).
      rewrite firstn_app.
      replace (5 - length following) with 0 by lia.
      cbn [firstn]. rewrite app_nil_r. now rewrite IH.
  - cbn [app ready_decisions]. now rewrite Hc, IH.
Qed.

Lemma kept_chunks_app (buffer later : list str) :
  kept_chunks (buffer ++ later) = kept_chunks (kept_chunks buffer ++ later).
Proof.
  induction buffer as [|chunk following IH]; [reflexivity|].
  cbn [kept_chunks].
  destruct (has_close chunk) eqn:Hc.
  - destruct (length following <? 5) eqn:H5; [reflexivity|].
    apply Nat.ltb_ge in H5.
    cbn [app kept_chunks]. rewrite Hc, length_app.
    replace (length following + length later <? 5) with false
      by (symmetry; apply Nat.ltb_ge; lia).
    exact IH.
  - cbn [app kept_chunks]. now rewrite Hc.
Qed.

Lemma ready_decisions_kept (buffer : list str) :
  ready_decisions (kept_chunks buffer) = [].
Proof.
  induction buffer as [|chunk following IH]; [reflexivity|].
  cbn [kept_chunks].
  destruct (has_close chunk) eqn:Hc; [|exact IH].
  destruct (length following <? 5) eqn:H5; [|exact IH].
  cbn [ready_decisions]. now rewrite Hc, H5.
Qed.

Lemma kept_chunks_stable (buffer : list str) :
  ready_decisions buffer = [] -> kept_chunks buffer = buffer.
Proof.
  destruct buffer as [|chunk following]; [reflexivity|].
  cbn [ready_decisions kept_chunks].
  destruct (has_close chunk); [|discriminate].
  destruct (length following <? 5); [reflexivity|discriminate].
Qed.

(** ** The driver, by exit path *)

Lemma forced_finalization_forced (buffer : list str) (ctx : context) :
  forced_finalization buffer ctx =
  '(results, ctx') <- transform_seq ctx (forced_decisions buffer) ;;
  Some (ForcedFinalization :: map Yield results, [], ctx').
Proof.
  unfold forced_finalization. rewrite finalize_all_chunks_forced.
  destruct (transform_seq ctx _) as [[r c]|]; reflexivity.
Qed.

(** One more chunk arrives: the decisions for the longer stream are those
    taken so far, then those on the kept chunks and the new one. *)
Ltac next_delta buffer new_chunk chunks :=
  change (buffer ++ new_chunk :: chunks)
    with (buffer ++ [new_chunk] ++ chunks);
  rewrite (app_assoc buffer [new_chunk] chunks);
  rewrite (ready_decisions_app (buffer ++ [new_chunk]) chunks);
  rewrite (kept_chunks_app (buffer ++ [new_chunk]) chunks);
  rewrite transform_seq_app.

Ltac run_seq :=
  repeat match goal with
    | |- context [bind (transform_seq ?c ?d) _] =>
        destruct (transform_seq c d) as [[? ?]|]; [|reflexivity]; cbn [bind]
    end.

(** The driver on every sequence of lines, by the way the loop is left:
    the decisions are those of the whole stream of chunks received. *)
Lemma pipe_lines_by_exit (lines : list upstream_line) :
  forall (buffer : list str) (ctx : context),
    ready_decisions buffer = [] ->
    pipe_lines lines buffer ctx =
    '(r1, ctx1) <-
       transform_seq ctx (ready_decisions (buffer ++ deltas_of lines)) ;;
    match exit_of lines with
    | ExitDone | ExitFinishReason =>
        '(r2, ctx2) <-
           transform_seq ctx1
             (forced_decisions (kept_chunks (buffer ++ deltas_of lines))) ;;
        Some (map Yield r1 ++ ForcedFinalization :: map Yield r2, [], ctx2)
    | ExitException =>
        '(r2, ctx2) <-
           transform_seq ctx1
             (forced_decisions (kept_chunks (buffer ++ deltas_of lines))) ;;
        Some (map Yield r1 ++ ForcedFinalization :: map Yield r2
                ++ [YieldError Traceback], [], ctx2)
    | ExitMalformedJson =>
        Some (map Yield r1 ++ [YieldError JSONDecodeError],
              kept_chunks (buffer ++ deltas_of lines), ctx1)
    | ExitExhausted =>
        Some (map Yield r1, kept_chunks (buffer ++ deltas_of lines), ctx1)
    end.
Proof.
  induction lines as [|line rest IH]; intros buffer ctx Hst.
  - cbn [deltas_of exit_of pipe_lines]. rewrite app_nil_r, Hst.
    now rewrite (kept_chunks_stable _ Hst).
  - destruct line; cbn [deltas_of exit_of pipe_lines]; try (now apply IH).
    + rewrite app_nil_r, Hst, (kept_chunks_stable _ Hst).
      rewrite forced_finalization_forced. cbn [transform_seq bind].
      now run_seq.
    + rewrite app_nil_r, Hst, (kept_chunks_stable _ Hst). reflexivity.
    + rewrite app_nil_r, Hst, (kept_chunks_stable _ Hst).
      rewrite forced_finalization_forced. cbn [transform_seq bind].
      now run_seq.
    + rewrite try_finalize_chunks_partial.
      next_delta buffer new_chunk (deltas_of rest).
      destruct (transform_seq ctx (ready_decisions (buffer ++ [new_chunk])))
        as [[r0 c0]|]; [|reflexivity].
      cbn [bind]. rewrite IH by apply ready_decisions_kept.
      destruct (transform_seq c0 _) as [[r1 c1]|]; [|reflexivity].
      cbn [bind].
      destruct (exit_of rest); run_seq;
        now rewrite map_app, <- ?app_assoc.
    + rewrite app_nil_r, Hst, (kept_chunks_stable _ Hst).
      rewrite forced_finalization_forced. cbn [transform_seq bind].
      now run_seq.
Qed.

Lemma exit_of_deltas_done (chunks : list str) :
  exit_of (map Delta chunks ++ [DoneMarker]) = ExitDone
  /\ deltas_of (map Delta chunks ++ [DoneMarker]) = chunks.
Proof.
  induction chunks as [|chunk chunks [IH1 IH2]]; [split; reflexivity|].
  cbn [map app exit_of deltas_of]. now rewrite IH2.
Qed.

Lemma try_finalize_chunks_total (buffer : list str) (ctx : context) :
  exists finalized ctx',
    try_finalize_chunks buffer ctx true
    = Some (finalized, kept_chunks buffer, ctx')
    /\ transform_seq ctx (ready_decisions buffer) = Some (finalized, ctx').
Proof.
  rewrite try_finalize_chunks_partial.
  destruct (transform_seq_total (ready_decisions buffer) ctx)
    as (r & c & -> & _).
  cbn [bind]. eauto.
Qed.

Lemma nth_error_middle {A : Type} (pre : list A) (x : A) (post : list A) :
  nth_error (pre ++ x :: post) (length pre) = Some x.
Proof. induction pre as [|y pre IH]; simpl; [reflexivity|exact IH]. Qed.

Lemma stream_decisions_at (pre : list str) (chunk : str) (post : list str) :
  has_close chunk = true ->
  nth_error (stream_decisions (pre ++ chunk :: post)) (length pre)
  = Some (chunk,
          (length post <? 5) || negb (existsb has_close (firstn 5 post))).
Proof.
  intros Hc. unfold stream_decisions.
  induction pre as [|x pre IH].
  - cbn [app ready_decisions kept_chunks length]. rewrite Hc.
    destruct (length post <? 5); reflexivity.
  - cbn [app ready_decisions kept_chunks length].
    destruct (has_close x); [|exact IH].
    destruct (length (pre ++ chunk :: post) <? 5) eqn:H5; [|exact IH].
    apply Nat.ltb_lt in H5. rewrite length_app in H5. simpl in H5.
    replace (length post <? 5) with true by (symmetry; apply Nat.ltb_lt; lia).
    cbn [app orb forced_decisions map nth_error].
    rewrite map_app. cbn [map].
    rewrite <- (length_map (fun c : str => (c, true)) pre).
    apply nth_error_middle.
Qed.

(** ** Claims on the finalizers *)

(** C7: the chunks ["<think>"], ["hello"], ["</think>"], ["world"] followed
    by the end of the stream give the fragments ["\n```Reasoning...\n"],
    ["hello"], ["\n```\n"], ["world"] in that order; the first two are
    released in partial mode, the last two by the forced finalization. *)
Theorem scenario_think_hello_world :
  pipe [Delta (lit "<think>"); Delta (lit "hello"); Delta (lit "</think>");
        Delta (lit "world"); DoneMarker]
  = Some ([Yield block_open; Yield (lit "hello"); ForcedFinalization;
           Yield block_close; Yield (lit "world")],
          [], seen).
Proof. vm_compute. reflexivity. Qed.

(** C8: for every buffer, [_finalize_all_chunks] takes the chunks in
    insertion order, transforms each one with [is_last_think] true through
    the one context, yields the results in that same order, one per chunk,
    and leaves the buffer empty. *)
Theorem finalize_all_chunks_in_order (buffer : list str) (ctx : context) :
  exists yielded ctx',
    finalize_all_chunks buffer ctx = Some (yielded, [], ctx')
    /\ transform_seq ctx (forced_decisions buffer) = Some (yielded, ctx')
    /\ map fst (forced_decisions buffer) = buffer
    /\ Forall (fun decision => snd decision = true) (forced_decisions buffer)
    /\ length yielded = length buffer.
Proof.
  rewrite finalize_all_chunks_forced.
  destruct (transform_seq_total (forced_decisions buffer) ctx)
    as (r & c & E & Hlen).
  rewrite E. cbn [bind]. exists r, c. repeat split.
  - unfold forced_decisions. rewrite map_map. apply map_id.
  - unfold forced_decisions. apply Forall_map, Forall_forall. reflexivity.
  - rewrite Hlen. apply length_map.
Qed.

(** C5: partial mode looks at the oldest buffered chunk again and again.  A
    chunk without ["</think>"] is popped, transformed with [is_last_think]
    false and appended to the result; a chunk with ["</think>"] and fewer
    than 5 chunks after it ends the scan, it and what follows staying in the
    buffer; with 5 or more after it, it is popped and transformed with
    [is_last_think] true exactly when none of the next 5 chunks has
    ["</think>"].  The call always returns, and the buffer left is a suffix
    of the buffer given, one chunk shorter per result. *)
Theorem partial_mode_scan (chunk : str) (following : list str)
    (ctx : context) :
  try_finalize_chunks [] ctx true = Some ([], [], ctx)
  /\ (has_close chunk = false ->
      try_finalize_chunks (chunk :: following) ctx true =
      '(processed, ctx1) <- transform_chunk chunk false ctx ;;
      '(finalized, buffer', ctx2) <- try_finalize_chunks following ctx1 true ;;
      Some (processed :: finalized, buffer', ctx2))
  /\ (has_close chunk = true -> length following < 5 ->
      try_finalize_chunks (chunk :: following) ctx true
      = Some ([], chunk :: following, ctx))
  /\ (has_close chunk = true -> 5 <= length following ->
      try_finalize_chunks (chunk :: following) ctx true =
      '(processed, ctx1) <-
         transform_chunk chunk
           (negb (existsb has_close (firstn 5 following))) ctx ;;
      '(finalized, buffer', ctx2) <- try_finalize_chunks following ctx1 true ;;
      Some (processed :: finalized, buffer', ctx2))
  /\ (forall buffer : list str,
      exists finalized buffer' ctx' k,
        try_finalize_chunks buffer ctx true = Some (finalized, buffer', ctx')
        /\ buffer' = skipn k buffer
        /\ length finalized = k).
Proof.
  split; [reflexivity|].
  repeat split.
  - intros Hc. rewrite !try_finalize_chunks_partial.
    cbn [ready_decisions kept_chunks transform_seq]. rewrite Hc.
    cbn [transform_seq].
    destruct (transform_chunk chunk false ctx) as [[r c1]|]; [|reflexivity].
    cbn [bind]. rewrite try_finalize_chunks_partial.
    destruct (transform_seq c1 _) as [[rs c2]|]; reflexivity.
  - intros Hc H5. rewrite try_finalize_chunks_partial.
    cbn [ready_decisions kept_chunks]. rewrite Hc.
    apply Nat.ltb_lt in H5. now rewrite H5.
  - intros Hc H5. rewrite !try_finalize_chunks_partial.
    cbn [ready_decisions kept_chunks]. rewrite Hc.
    apply Nat.ltb_ge in H5. rewrite H5. cbn [transform_seq].
    destruct (transform_chunk chunk _ ctx) as [[r c1]|]; [|reflexivity].
    cbn [bind]. rewrite try_finalize_chunks_partial.
    destruct (transform_seq c1 _) as [[rs c2]|]; reflexivity.
  - intros buffer.
    destruct (try_finalize_chunks_total buffer ctx) as (fin & c & E & Hseq).
    destruct (kept_chunks_suffix buffer) as (k & Hk & Hr).
    destruct (transform_seq_total (ready_decisions buffer) ctx)
      as (fin' & c' & E' & Hlen).
    exists fin, (kept_chunks buffer), c, (length fin).
    split; [exact E|]. split; [|reflexivity].
    rewrite Hseq in E'. injection E' as <- <-.
    rewrite Hlen, <- (length_map fst), Hr, Hk.
    (* [firstn k buffer] has length [k] or, past the end, [length buffer];
       either way as many chunks are dropped. *)
    rewrite length_firstn.
    destruct (Nat.le_gt_cases k (length buffer)) as [Hle|Hgt].
    + now rewrite Nat.min_l.
    + rewrite Nat.min_r by lia. rewrite !skipn_all2 by lia. reflexivity.
Qed.

Lemma partial_mode_scan_witness :
  try_finalize_chunks [lit "x"; lit "y</think>"] fresh true
  = Some ([lit "x"], [lit "y</think>"], fresh)
  /\ try_finalize_chunks [lit "y</think>"] fresh true
     = Some ([], [lit "y</think>"], fresh)
  /\ try_finalize_chunks
       [lit "y</think>"; lit "1"; lit "2"; lit "3"; lit "</think>"; lit "5"]
       fresh true
     = Some ([lit "y"; lit "1"; lit "2"; lit "3"],
             [lit "</think>"; lit "5"], fresh).
Proof.
  split; [|split].
  - destruct (partial_mode_scan (lit "x") [lit "y</think>"] fresh)
      as (_ & H & _).
    rewrite (H eq_refl). reflexivity.
  - destruct (partial_mode_scan (lit "y</think>") [] fresh)
      as (_ & _ & H & _).
    apply H; [reflexivity|]. simpl. repeat constructor.
  - destruct (partial_mode_scan (lit "y</think>")
                [lit "1"; lit "2"; lit "3"; lit "</think>"; lit "5"] fresh)
      as (_ & _ & _ & H & _).
    rewrite H; [reflexivity|reflexivity|]. simpl. repeat constructor.
Defined.

(** C1, the claim as stated fails: for the chunks ["a</think>b"] and
    ["c</think>d"] followed by the end of the stream, nothing is released in
    partial mode and the forced finalization decorates both closing markers;
    the first fragment is ["a\n```\nb"], not ["ab"]. *)
Lemma scenario_two_closers_both_decorated :
  pipe [Delta (lit "a</think>b"); Delta (lit "c</think>d"); DoneMarker]
  = Some ([ForcedFinalization;
           Yield (lit "a" ++ block_close ++ lit "b");
           Yield (lit "c" ++ block_close ++ lit "d")],
          [], fresh)
  /\ lit "a" ++ block_close ++ lit "b" <> lit "ab".
Proof. split; [vm_compute; reflexivity|discriminate]. Qed.

(** C1, amended: for every sequence of chunks followed by the end of the
    stream, every chunk is transformed once, in arrival order: first the
    chunks partial mode releases, then, after the forced finalization is
    entered, the rest.  A chunk with ["</think>"] is transformed with
    [is_last_think] true exactly when fewer than 5 chunks follow it in the
    stream or none of the 5 chunks after it has ["</think>"]; so the chunk
    with the last ["</think>"] of the stream is always decorated, and an
    earlier one is stripped only when 5 or more chunks follow it and one of
    the next 5 has ["</think>"].  For ["a</think>b"], ["c</think>d"] both
    fragments come from the forced finalization, both decorated. *)
Theorem stream_closer_decisions (chunks : list str) :
  (exists r1 ctx1 r2 ctx2,
      transform_seq fresh (ready_decisions chunks) = Some (r1, ctx1)
      /\ transform_seq ctx1 (forced_decisions (kept_chunks chunks))
         = Some (r2, ctx2)
      /\ pipe (map Delta chunks ++ [DoneMarker])
         = Some (map Yield r1 ++ ForcedFinalization :: map Yield r2,
                 [], ctx2)
      /\ length (r1 ++ r2) = length chunks)
  /\ map fst (stream_decisions chunks) = chunks
  /\ (forall pre chunk post,
         chunks = pre ++ chunk :: post ->
         has_close chunk = true ->
         nth_error (stream_decisions chunks) (length pre)
         = Some (chunk,
                 (length post <? 5)
                 || negb (existsb has_close (firstn 5 post))))
  /\ (forall pre chunk post,
         chunks = pre ++ chunk :: post ->
         has_close chunk = true ->
         Forall (fun later => has_close later = false) post ->
         nth_error (stream_decisions chunks) (length pre)
         = Some (chunk, true))
  /\ pipe [Delta (lit "a</think>b"); Delta (lit "c</think>d"); DoneMarker]
     = Some ([ForcedFinalization;
              Yield (lit "a" ++ block_close ++ lit "b");
              Yield (lit "c" ++ block_close ++ lit "d")],
             [], fresh).
Proof.
  assert (Hfst : map fst (stream_decisions chunks) = chunks).
  { unfold stream_decisions, forced_decisions.
    destruct (kept_chunks_suffix chunks) as (k & -> & Hr).
    rewrite map_app, Hr, map_map. cbn [fst]. rewrite map_id.
    apply firstn_skipn. }
  split; [|split; [exact Hfst|split; [|split]]].
  - destruct (transform_seq_total (ready_decisions chunks) fresh)
      as (r1 & c1 & E1 & L1).
    destruct (transform_seq_total (forced_decisions (kept_chunks chunks)) c1)
      as (r2 & c2 & E2 & L2).
    exists r1, c1, r2, c2. split; [exact E1|]. split; [exact E2|]. split.
    + unfold pipe. rewrite pipe_lines_by_exit by reflexivity.
      destruct (exit_of_deltas_done chunks) as [-> ->].
      cbn [app]. rewrite E1. cbn [bind]. rewrite E2. reflexivity.
    + rewrite length_app, L1, L2, <- length_app.
      fold (stream_decisions chunks).
      now rewrite <- (length_map fst), Hfst.
  - intros pre chunk post -> Hc. now apply stream_decisions_at.
  - intros pre chunk post -> Hc Hpost.
    rewrite stream_decisions_at by exact Hc. f_equal. f_equal.
    destruct (length post <? 5); [reflexivity|]. cbn [orb].
    apply negb_true_iff.
    destruct (existsb has_close (firstn 5 post)) eqn:E; [|reflexivity].
    apply existsb_exists in E. destruct E as (x & Hin & Hx).
    rewrite Forall_forall in Hpost.
    rewrite (Hpost x) in Hx; [discriminate|].
    rewrite <- (firstn_skipn 5 post). apply in_or_app. now left.
  - vm_compute. reflexivity.
Qed.

Lemma stream_closer_decisions_witness :
  nth_error
    (stream_decisions
       [lit "a</think>"; lit "1"; lit "2"; lit "3"; lit "4"; lit "b</think>";
        lit "c"])
    0
  = Some (lit "a</think>", false)
  /\ nth_error
       (stream_decisions
          [lit "a</think>"; lit "1"; lit "2"; lit "3"; lit "4";
           lit "b</think>"; lit "c"])
       5
     = Some (lit "b</think>", true).
Proof.
  split.
  - destruct (stream_closer_decisions
                [lit "a</think>"; lit "1"; lit "2"; lit "3"; lit "4";
                 lit "b</think>"; lit "c"]) as (_ & _ & H & _).
    exact (H [] (lit "a</think>")
             [lit "1"; lit "2"; lit "3"; lit "4"; lit "b</think>"; lit "c"]
             eq_refl eq_refl).
  - destruct (stream_closer_decisions
                [lit "a</think>"; lit "1"; lit "2"; lit "3"; lit "4";
                 lit "b</think>"; lit "c"]) as (_ & _ & _ & H & _).
    apply (H [lit "a</think>"; lit "1"; lit "2"; lit "3"; lit "4"]
             (lit "b</think>") [lit "c"] eq_refl eq_refl).
    repeat constructor.
Defined.

(** ** Exit paths of the driver *)

Lemma forced_count_yield (l : list str) : forced_count (map Yield l) = 0.
Proof. induction l as [|f l IH]; simpl; [reflexivity|exact IH]. Qed.

Lemma forced_count_app (e1 e2 : list event) :
  forced_count (e1 ++ e2) = forced_count e1 + forced_count e2.
Proof.
  induction e1 as [|[f|e|] e1 IH]; simpl; now rewrite ?IH.
Qed.

(** C2, the claim as stated fails on two exit paths: when the upstream runs
    out of lines without a terminator, the generator finishes with the
    buffered chunk still in the buffer and no forced finalization; after a
    malformed JSON line the error payload is yielded and the generator
    finishes, again without forced finalization and with the buffer full. *)
Lemma exits_without_forced_finalization :
  pipe [Delta (lit "x</think>")] = Some ([], [lit "x</think>"], fresh)
  /\ pipe [Delta (lit "x</think>"); MalformedJson]
     = Some ([YieldError JSONDecodeError], [lit "x</think>"], fresh).
Proof. split; vm_compute; reflexivity. Qed.

(** C2, amended: for every sequence of lines, when the loop is left by a
    ["[DONE]"] line, by a [finish_reason] or by an exception other than a
    JSON decoding error, exactly one forced finalization runs; only text
    fragments are yielded before it, the traceback payload of an exception
    comes after its fragments, every chunk received is transformed and
    yielded once, and the buffer is empty when the generator finishes.  A
    malformed JSON line ends the generator with its own error payload at
    once: no forced finalization runs on that path, and the chunks partial
    mode kept stay in the buffer. *)
Theorem forced_finalization_on_exit (lines : list upstream_line) :
  (exit_of lines = ExitDone \/ exit_of lines = ExitFinishReason ->
   exists before after ctx',
     pipe lines
     = Some (map Yield before ++ ForcedFinalization :: map Yield after,
             [], ctx')
     /\ forced_count
          (map Yield before ++ ForcedFinalization :: map Yield after) = 1
     /\ transform_seq fresh (stream_decisions (deltas_of lines))
        = Some (before ++ after, ctx'))
  /\ (exit_of lines = ExitException ->
      exists before after ctx',
        pipe lines
        = Some (map Yield before ++ ForcedFinalization :: map Yield after
                  ++ [YieldError Traceback],
                [], ctx')
        /\ forced_count
             (map Yield before ++ ForcedFinalization :: map Yield after
                ++ [YieldError Traceback]) = 1
        /\ transform_seq fresh (stream_decisions (deltas_of lines))
           = Some (before ++ after, ctx'))
  /\ (exit_of lines = ExitMalformedJson ->
      exists before ctx',
        pipe lines
        = Some (map Yield before ++ [YieldError JSONDecodeError],
                kept_chunks (deltas_of lines), ctx')
        /\ forced_count (map Yield before ++ [YieldError JSONDecodeError])
           = 0
        /\ transform_seq fresh (ready_decisions (deltas_of lines))
           = Some (before, ctx')).
Proof.
  pose proof (pipe_lines_by_exit lines [] fresh eq_refl) as H.
  fold (pipe lines) in H. cbn [app] in H.
  unfold stream_decisions. rewrite transform_seq_app.
  destruct (transform_seq_total (ready_decisions (deltas_of lines)) fresh)
    as (r1 & c1 & E1 & _).
  destruct (transform_seq_total
              (forced_decisions (kept_chunks (deltas_of lines))) c1)
    as (r2 & c2 & E2 & _).
  rewrite E1 in *. cbn [bind] in *. rewrite E2 in *. cbn [bind] in *.
  split; [|split].
  - intros [E|E]; rewrite E in H; exists r1, r2, c2;
      (split; [exact H|]); (split; [|reflexivity]);
      rewrite forced_count_app; cbn [forced_count];
      now rewrite !forced_count_yield.
  - intros E. rewrite E in H. exists r1, r2, c2.
    split; [exact H|]. split; [|reflexivity].
    rewrite forced_count_app. cbn [forced_count].
    rewrite forced_count_app, !forced_count_yield. reflexivity.
  - intros E. rewrite E in H. exists r1, c1.
    split; [exact H|]. split; [|reflexivity].
    rewrite forced_count_app, forced_count_yield. reflexivity.
Qed.

Lemma forced_finalization_on_exit_witness :
  (exists before after ctx',
      pipe [Delta (lit "x</think>"); NotData; DoneMarker]
      = Some (map Yield before ++ ForcedFinalization :: map Yield after,
              [], ctx')
      /\ forced_count
           (map Yield before ++ ForcedFinalization :: map Yield after) = 1
      /\ transform_seq fresh (stream_decisions [lit "x</think>"])
         = Some (before ++ after, ctx'))
  /\ (exists before after ctx',
         pipe [Delta (lit "x</think>"); Raises]
         = Some (map Yield before ++ ForcedFinalization :: map Yield after
                   ++ [YieldError Traceback],
                 [], ctx')
         /\ forced_count
              (map Yield before ++ ForcedFinalization :: map Yield after
                 ++ [YieldError Traceback]) = 1
         /\ transform_seq fresh (stream_decisions [lit "x</think>"])
            = Some (before ++ after, ctx'))
  /\ (exists before ctx',
         pipe [Delta (lit "x</think>"); MalformedJson]
         = Some (map Yield before ++ [YieldError JSONDecodeError],
                 [lit "x</think>"], ctx')
         /\ forced_count (map Yield before ++ [YieldError JSONDecodeError])
            = 0
         /\ transform_seq fresh (ready_decisions [lit "x</think>"])
            = Some (before, ctx')).
Proof.
  split; [|split].
  - destruct (forced_finalization_on_exit
                [Delta (lit "x</think>"); NotData; DoneMarker]) as (H & _).
    apply H. left. reflexivity.
  - destruct (forced_finalization_on_exit
                [Delta (lit "x</think>"); Raises]) as (_ & H & _).
    apply H. reflexivity.
  - destruct (forced_finalization_on_exit
                [Delta (lit "x</think>"); MalformedJson]) as (_ & _ & H).
    apply H. reflexivity.
Defined.

(** ** The loops of [_transform_chunk] *)

Lemma open_step_absent (result : str) (ctx : context) :
  Py.index think_open result = None -> open_step result ctx = None.
Proof. unfold open_step. now intros ->. Qed.

Lemma open_loop_absent (fuel : nat) (result : str) (ctx : context) :
  Py.index think_open result = None ->
  open_loop fuel result ctx = Some (result, ctx).
Proof.
  intros H. destruct fuel; cbn [open_loop]; now rewrite open_step_absent.
Qed.

Lemma close_loop_absent (fuel : nat) (is_last_think : bool) (result : str) :
  Py.index think_close result = None ->
  close_loop fuel is_last_think result = Some result.
Proof.
  intros H. destruct fuel; cbn [close_loop]; unfold close_step; now rewrite H.
Qed.

Lemma strip_absent (patterns : list str) (result : str) :
  Forall (fun pattern => Py.index pattern result = None) patterns ->
  fold_left (fun r pattern => Py.replace pattern [] r) patterns result
  = result.
Proof.
  induction 1 as [|pattern patterns H _ IH]; [reflexivity|].
  cbn [fold_left]. now rewrite replace_absent.
Qed.

(** A chunk with no marker and no leftover pattern is returned as it is. *)
Lemma transform_chunk_plain (chunk : str) (is_last_think : bool)
    (ctx : context) :
  Py.index think_open chunk = None ->
  Py.index think_close chunk = None ->
  Forall (fun pattern => Py.index pattern chunk = None) leftover_patterns ->
  transform_chunk chunk is_last_think ctx = Some (chunk, ctx).
Proof.
  intros Ho Hc Hl. unfold transform_chunk, open_phase, close_phase.
  rewrite open_loop_absent by exact Ho. cbn [bind].
  rewrite close_loop_absent by exact Hc. cbn [bind].
  unfold strip_leftovers. now rewrite strip_absent.
Qed.

(** Both markers and every leftover pattern end in ["k>"]. *)
Lemma absent_k_gt (result : str) :
  Py.index (lit "k>") result = None ->
  Py.index think_open result = None
  /\ Py.index think_close result = None
  /\ Forall (fun pattern => Py.index pattern result = None)
       leftover_patterns.
Proof.
  intros H.
  pose proof (fun a => index_none_around (lit "k>") a [] result H) as Ha.
  split; [exact (Ha (lit "<thin"))|].
  split; [exact (Ha (lit "</thin"))|].
  repeat constructor.
  - exact (Ha (lit "/thin")).
  - exact (Ha (lit "thin")).
  - exact (Ha (lit "hin")).
  - exact (Ha (lit "in")).
  - exact (Ha (lit "n")).
  - exact (Ha []).
Qed.

Lemma nl_foreign_open : ~ In nl think_open.
Proof. unfold nl. simpl. intuition discriminate. Qed.

Lemma nl_foreign_close : ~ In nl think_close.
Proof. unfold nl. simpl. intuition discriminate. Qed.

Lemma think_open_nonempty : think_open <> [].
Proof. discriminate. Qed.

Lemma think_close_nonempty : think_close <> [].
Proof. discriminate. Qed.

Lemma context_seen (ctx : context) :
  first_think_found ctx = true -> ctx = seen.
Proof. destruct ctx as [[|]]; [reflexivity|discriminate]. Qed.

Lemma context_fresh (ctx : context) :
  first_think_found ctx = false -> ctx = fresh.
Proof. destruct ctx as [[|]]; [discriminate|reflexivity]. Qed.

(** With the opener already seen, the first loop only deletes. *)
Lemma open_loop_seen (fuel : nat) :
  forall (result result' : str) (ctx' : context),
    open_loop fuel result seen = Some (result', ctx') ->
    ctx' = seen /\ subseq result' result.
Proof.
  induction fuel as [|fuel IH]; intros result result' ctx';
    cbn [open_loop]; unfold open_step;
    destruct (Py.index think_open result) as [idx|] eqn:E;
    cbn [seen first_think_found negb]; intros H; try discriminate H.
  - injection H as <- <-. split; [reflexivity|apply subseq_refl].
  - apply IH in H. destruct H as [-> H]. split; [reflexivity|].
    apply (subseq_trans _ _ _ H).
    rewrite (index_split _ _ _ E) at 3. apply subseq_drop_middle.
  - injection H as <- <-. split; [reflexivity|apply subseq_refl].
Qed.

Lemma open_loop_more_fuel (fuel : nat) :
  forall (fuel' : nat) (result : str) (ctx : context)
         (out : str * context),
    open_loop fuel result ctx = Some out ->
    fuel <= fuel' ->
    open_loop fuel' result ctx = Some out.
Proof.
  induction fuel as [|fuel IH]; intros fuel' result ctx out H Hle;
    destruct fuel' as [|fuel']; cbn [open_loop] in *;
    destruct (open_step result ctx) as [[r c]|]; try exact H;
    try discriminate H; try lia.
  apply IH; [exact H|lia].
Qed.

(** Behind a line feed that no occurrence reaches, the first loop works on
    the rest of the text alone. *)
Lemma open_loop_behind (u : str) (fuel : nat) :
  Py.index think_open u = None ->
  forall v : str,
    open_loop fuel (u ++ nl :: v) seen
    = option_map (fun out : str * context => (u ++ nl :: fst out, snd out))
        (open_loop fuel v seen).
Proof.
  intros Hu. induction fuel as [|fuel IH]; intros v;
    cbn [open_loop]; unfold open_step;
    rewrite (index_foreign _ _ nl_foreign_open _ _ Hu);
    destruct (Py.index think_open v) as [j|] eqn:E;
    cbn [option_map seen first_think_found negb fst snd]; try reflexivity.
  replace (length u + 1 + j) with (length u + S j) by lia.
  rewrite firstn_app_2, skipn_app.
  rewrite skipn_all2 by lia.
  replace (length u + S j + length think_open - length u)
    with (S (j + length think_open)) by lia.
  cbn [firstn skipn app]. rewrite <- app_assoc. cbn [app].
  apply IH.
Qed.

Lemma open_phase_seen (chunk : str) :
  exists result,
    open_phase chunk seen = Some (result, seen)
    /\ subseq result chunk
    /\ Py.index think_open result = None.
Proof.
  destruct (open_phase_total chunk seen) as (r & c & E & Hr).
  destruct (open_loop_seen _ _ _ _ E) as [-> Hs]. eauto.
Qed.

(** With a fresh context, the first opener is replaced by the decoration
    and the loop goes on, deleting, in the text after it. *)
Lemma open_phase_fresh (chunk : str) (idx : nat) :
  Py.index think_open chunk = Some idx ->
  exists rest,
    open_phase (skipn (idx + length think_open) chunk) seen
    = Some (rest, seen)
    /\ open_phase chunk fresh
       = Some (firstn idx chunk ++ block_open ++ rest, seen).
Proof.
  intros E.
  destruct (open_phase_seen (skipn (idx + length think_open) chunk))
    as (rest & Hrest & _).
  exists rest. split; [exact Hrest|].
  unfold open_phase, open_measure. cbn [fresh first_think_found].
  replace (length chunk + 11) with (S (length chunk + 10)) by lia.
  cbn [open_loop]. unfold open_step. rewrite E.
  cbn [fresh first_think_found negb].
  change {| first_think_found := true |} with seen.
  change block_open with ((nl :: lit "```Reasoning...") ++ [nl]).
  rewrite <- (app_assoc _ [nl]), app_assoc. cbn [app].
  rewrite open_loop_behind.
  - rewrite (open_loop_more_fuel _ _ _ _ _ Hrest).
    + cbn [option_map fst snd]. now rewrite <- app_assoc.
    + unfold open_measure. cbn [seen first_think_found].
      rewrite length_skipn. lia.
  - rewrite (index_foreign _ _ nl_foreign_open).
    + reflexivity.
    + apply index_before; [exact think_open_nonempty|exact E].
Qed.

(** The flag after a chunk: set before, or the chunk has an opener. *)
Lemma open_phase_flag (chunk result : str) (ctx ctx' : context) :
  open_phase chunk ctx = Some (result, ctx') ->
  first_think_found ctx'
  = first_think_found ctx || Py.contains think_open chunk.
Proof.
  intros H. unfold Py.contains.
  destruct (Py.index think_open chunk) as [idx|] eqn:E.
  - destruct (first_think_found ctx) eqn:F.
    + apply context_seen in F. subst ctx.
      now destruct (open_loop_seen _ _ _ _ H) as [-> _].
    + apply context_fresh in F. subst ctx.
      destruct (open_phase_fresh _ _ E) as (rest & _ & H').
      rewrite H' in H. now injection H as <- <-.
  - unfold open_phase in H. rewrite open_loop_absent in H by exact E.
    injection H as <- <-. now rewrite orb_false_r.
Qed.

Lemma transform_chunk_flag (chunk result : str) (is_last_think : bool)
    (ctx ctx' : context) :
  transform_chunk chunk is_last_think ctx = Some (result, ctx') ->
  first_think_found ctx'
  = first_think_found ctx || Py.contains think_open chunk.
Proof.
  unfold transform_chunk.
  destruct (open_phase chunk ctx) as [[r1 c1]|] eqn:E; [|discriminate].
  cbn [bind]. destruct (close_phase is_last_think r1); [|discriminate].
  cbn [bind]. intros H. injection H as <- <-. exact (open_phase_flag _ _ _ _ E).
Qed.

Lemma transform_seq_flag (decisions : list (str * bool)) :
  forall (ctx ctx' : context) (results : list str),
    transform_seq ctx decisions = Some (results, ctx') ->
    first_think_found ctx'
    = first_think_found ctx
      || existsb (fun decision => Py.contains think_open (fst decision))
           decisions.
Proof.
  induction decisions as [|[chunk is_last] ds IH]; intros ctx ctx' results;
    cbn [transform_seq existsb fst].
  - intros H. injection H as <- <-. now rewrite orb_false_r.
  - destruct (transform_chunk chunk is_last ctx) as [[r c1]|] eqn:E;
      [|discriminate].
    cbn [bind]. destruct (transform_seq c1 ds) as [[rs c2]|] eqn:E2;
      [|discriminate].
    cbn [bind]. intros H. injection H as <- <-.
    rewrite (IH _ _ _ E2), (transform_chunk_flag _ _ _ _ _ E).
    now rewrite orb_assoc.
Qed.

Lemma some_inj {A : Type} (a a' : A) : Some a = Some a' -> a = a'.
Proof. congruence. Qed.

Lemma some_pair_inj {A B : Type} (a a' : A) (b b' : B) :
  Some (a, b) = Some (a', b') -> a = a' /\ b = b'.
Proof. intros H. split; congruence. Qed.

(** A decorating iteration removes the occurrence it found and makes none:
    the decorations begin and end with a line feed. *)
Lemma open_step_fresh_occurrences (result result' : str) (ctx' : context) :
  open_step result fresh = Some (result', ctx') ->
  Py.occurrences think_open result' < Py.occurrences think_open result.
Proof.
  unfold open_step.
  destruct (Py.index think_open result) as [idx|] eqn:E; [|discriminate].
  cbn [fresh first_think_found negb]. intros H.
  destruct (some_pair_inj _ _ _ _ H) as [<- _].
  rewrite (index_split _ _ _ E) at 3.
  pose proof (occurrences_here think_open (firstn idx result)
                (skipn (idx + length think_open) result)
                think_open_nonempty) as Hge.
  change block_open with ((nl :: lit "```Reasoning...") ++ [nl]).
  rewrite <- (app_assoc _ [nl]), app_assoc. cbn [app].
  rewrite !(occurrences_foreign _ _ nl_foreign_open).
  rewrite (occurrences_absent _ _
             (index_before _ _ think_open_nonempty _ E)).
  change (Py.occurrences think_open (lit "```Reasoning...")) with 0.
  lia.
Qed.

Lemma close_step_last_occurrences (result result' : str) :
  close_step true result = Some result' ->
  Py.occurrences think_close result' < Py.occurrences think_close result.
Proof.
  unfold close_step.
  destruct (Py.index think_close result) as [idx|] eqn:E; [|discriminate].
  intros H. destruct (some_inj _ _ H).
  rewrite (index_split _ _ _ E) at 3.
  pose proof (occurrences_here think_close (firstn idx result)
                (skipn (idx + length think_close) result)
                think_close_nonempty) as Hge.
  change block_close with ((nl :: lit "```") ++ [nl]).
  rewrite <- (app_assoc _ [nl]), app_assoc. cbn [app].
  rewrite !(occurrences_foreign _ _ nl_foreign_close).
  rewrite (occurrences_absent _ _
             (index_before _ _ think_close_nonempty _ E)).
  change (Py.occurrences think_close (lit "```")) with 0.
  lia.
Qed.

Lemma contains_false (p s : str) :
  Py.contains p s = false -> Py.index p s = None.
Proof. unfold Py.contains. now destruct (Py.index p s). Qed.

Lemma index_none_contains (p s : str) :
  Py.index p s = None -> Py.contains p s = false.
Proof. unfold Py.contains. now intros ->. Qed.

(** ** One removal pass *)

Lemma replace_from_skip (old new : str) (s : str) :
  forall skip,
    Py.replace_from old new skip s
    = Py.replace_from old new 0 (skipn skip s).
Proof.
  induction s as [|c s IH]; intros [|k]; try reflexivity.
  cbn [Py.replace_from skipn]. apply IH.
Qed.

(** [replace] at the first occurrence: the text before it is kept, the
    occurrence dropped, and the scan resumes after it. *)
Lemma replace_first (old : str) (s : str) :
  old <> [] ->
  forall i,
    Py.index old s = Some i ->
    Py.replace old [] s
    = firstn i s ++ Py.replace old [] (skipn (i + length old) s).
Proof.
  intros Hne. unfold Py.replace. induction s as [|c s IH]; intros i H.
  - rewrite index_unfold, (startswith_empty _ Hne) in H. discriminate H.
  - rewrite index_cons in H. cbn [Py.replace_from].
    destruct (Py.startswith old (c :: s)) eqn:E.
    + destruct (some_inj _ _ H). cbn [firstn app Nat.add].
      rewrite replace_from_skip.
      destruct old as [|a q]; [congruence|]. cbn [length skipn].
      now replace (S (length q) - 1) with (length q) by lia.
    + destruct (Py.index old s) as [j|]; [|discriminate H].
      destruct (some_inj _ _ H). cbn [firstn app Nat.add skipn].
      now rewrite (IH j eq_refl).
Qed.

(** ** Claims on [_transform_chunk] *)

(** C9: a chunk with no ["<think>"], no ["</think>"] and none of the
    patterns ["/think>"], ["think>"], ["hink>"], ["ink>"], ["nk>"], ["k>"]
    is returned unchanged, whatever [is_last_think] and the context are,
    and the context is left as it was. *)
Theorem plain_chunk_unchanged (chunk : str) (is_last_think : bool)
    (ctx : context) :
  Py.contains think_open chunk = false ->
  Py.contains think_close chunk = false ->
  Forall (fun pattern => Py.contains pattern chunk = false)
    leftover_patterns ->
  transform_chunk chunk is_last_think ctx = Some (chunk, ctx).
Proof.
  intros Ho Hc Hl. apply transform_chunk_plain.
  - now apply contains_false.
  - now apply contains_false.
  - apply Forall_forall. intros pattern Hin. apply contains_false.
    rewrite Forall_forall in Hl. now apply Hl.
Qed.

Lemma plain_chunk_unchanged_witness :
  transform_chunk (lit "hello, world") true fresh
  = Some (lit "hello, world", fresh).
Proof.
  apply plain_chunk_unchanged; [reflexivity|reflexivity|].
  repeat constructor.
Defined.

(** C4, the claim as stated fails: with [is_last_think] false and a fresh
    context both times, ["kk>>"] is transformed to ["k>"], and ["k>"] to the
    empty text. *)
Lemma transform_chunk_twice_differs :
  transform_chunk (lit "kk>>") false fresh = Some (lit "k>", fresh)
  /\ transform_chunk (lit "k>") false fresh = Some ([], fresh)
  /\ lit "k>" <> [].
Proof. repeat split; [vm_compute; reflexivity..|discriminate]. Qed.

(** C4, amended: for every text and every fixed [is_last_think] and
    context, when the first result contains no ["k>"] (the ending shared by
    both markers and all leftover patterns), transforming it again with the
    same flags returns it unchanged.  The decorations contain no ["k>"]:
    decorated text is not decorated again. *)
Theorem transform_chunk_idempotent_without_k_gt (x once : str)
    (is_last_think : bool) (ctx ctx' : context) :
  transform_chunk x is_last_think ctx = Some (once, ctx') ->
  Py.contains (lit "k>") once = false ->
  transform_chunk once is_last_think ctx = Some (once, ctx)
  /\ Py.contains (lit "k>") block_open = false
  /\ Py.contains (lit "k>") block_close = false.
Proof.
  intros _ Hk. split; [|split; reflexivity].
  destruct (absent_k_gt _ (contains_false _ _ Hk)) as (Ho & Hc & Hl).
  now apply transform_chunk_plain.
Qed.

Lemma transform_chunk_idempotent_without_k_gt_witness :
  transform_chunk (block_open ++ lit "hello" ++ block_close) true fresh
  = Some (block_open ++ lit "hello" ++ block_close, fresh)
  /\ Py.contains (lit "k>") block_open = false
  /\ Py.contains (lit "k>") block_close = false.
Proof.
  apply (transform_chunk_idempotent_without_k_gt
           (lit "<think>hello</think>")
           (block_open ++ lit "hello" ++ block_close) true fresh seen);
    vm_compute; reflexivity.
Defined.


Lemma decorating_calls_seen (decisions : list (str * bool)) :
  forall ctx,
    first_think_found ctx = true -> decorating_calls ctx decisions = Some 0.
Proof.
  induction decisions as [|[chunk is_last] ds IH]; intros ctx F;
    [reflexivity|].
  cbn [decorating_calls].
  destruct (transform_chunk_total chunk is_last ctx) as (r & c1 & E).
  rewrite E. cbn [bind].
  rewrite IH by (rewrite (transform_chunk_flag _ _ _ _ _ E), F; reflexivity).
  cbn [bind]. now rewrite F.
Qed.

Lemma decorating_calls_at_most_once (decisions : list (str * bool)) :
  forall ctx, exists n, decorating_calls ctx decisions = Some n /\ n <= 1.
Proof.
  induction decisions as [|[chunk is_last] ds IH]; intros ctx.
  - exists 0. split; [reflexivity|lia].
  - destruct (first_think_found ctx) eqn:F.
    + exists 0. split; [now apply decorating_calls_seen|lia].
    + cbn [decorating_calls].
      destruct (transform_chunk_total chunk is_last ctx) as (r & c1 & E).
      rewrite E. cbn [bind]. pose proof (transform_chunk_flag _ _ _ _ _ E) as Hf.
      rewrite F in *. cbn [negb andb orb] in *.
      destruct (Py.contains think_open chunk).
      * rewrite (decorating_calls_seen ds c1 Hf). cbn [bind].
        exists 1. split; [reflexivity|lia].
      * destruct (IH c1) as (n & -> & Hn). cbn [bind].
        exists n. split; [reflexivity|exact Hn].
Qed.

(** C10, the claim as stated fails in its variant: a deleting iteration can
    join the text around the marker into a new marker, so the number of
    occurrences does not decrease.  With the opener already seen, one
    iteration takes ["<thi<think>nk>"] to ["<think>"]: one occurrence
    before, one after; likewise for ["</thi</think>nk>"] when
    [is_last_think] is false. *)
Lemma deleting_iteration_keeps_count :
  open_step (lit "<thi<think>nk>") seen = Some (lit "<think>", seen)
  /\ Py.occurrences think_open (lit "<thi<think>nk>") = 1
  /\ Py.occurrences think_open (lit "<think>") = 1
  /\ close_step false (lit "</thi</think>nk>") = Some (lit "</think>")
  /\ Py.occurrences think_close (lit "</thi</think>nk>") = 1
  /\ Py.occurrences think_close (lit "</think>") = 1.
Proof. repeat split; vm_compute; reflexivity. Qed.

(** C10, amended: [_transform_chunk] returns a result for every chunk, every
    [is_last_think] and every context.  Each iteration of the first loop
    lowers the length of the text plus 11 while the opener is not yet seen:
    the one decorating iteration sets the flag, every other one deletes 7
    characters.  Each iteration of the second loop shortens the text.  An
    iteration that inserts a decoration does lower the number of occurrences
    of its marker, since the decorations contain neither marker.  The
    leftover removal is a sequence of 6 replace operations. *)
Theorem transform_chunk_terminates :
  (forall (chunk : str) (is_last_think : bool) (ctx : context),
      exists result ctx',
        transform_chunk chunk is_last_think ctx = Some (result, ctx'))
  /\ (forall (result result' : str) (ctx ctx' : context),
         open_step result ctx = Some (result', ctx') ->
         open_measure result' ctx' < open_measure result ctx)
  /\ (forall (is_last_think : bool) (result result' : str),
         close_step is_last_think result = Some result' ->
         length result' < length result)
  /\ (forall (result result' : str) (ctx' : context),
         open_step result fresh = Some (result', ctx') ->
         Py.occurrences think_open result'
         < Py.occurrences think_open result)
  /\ (forall result result' : str,
         close_step true result = Some result' ->
         Py.occurrences think_close result'
         < Py.occurrences think_close result)
  /\ Py.contains think_open block_open = false
  /\ Py.contains think_close block_close = false
  /\ length leftover_patterns = 6.
Proof.
  split; [exact transform_chunk_total|].
  split; [exact open_step_decreases|].
  split; [exact close_step_decreases|].
  split; [exact open_step_fresh_occurrences|].
  split; [exact close_step_last_occurrences|].
  repeat split.
Qed.

Lemma transform_chunk_terminates_witness :
  open_measure (lit "<think>") seen
  < open_measure (lit "<thi<think>nk>") seen
  /\ length (lit "</think>") < length (lit "</thi</think>nk>")
  /\ Py.occurrences think_open (block_open ++ lit "<think>")
     < Py.occurrences think_open (lit "<think><think>")
  /\ Py.occurrences think_close (block_close ++ lit "</think>")
     < Py.occurrences think_close (lit "</think></think>").
Proof.
  destruct transform_chunk_terminates as (_ & H2 & H3 & H4 & H5 & _).
  split; [|split; [|split]].
  - exact (H2 (lit "<thi<think>nk>") (lit "<think>") seen seen eq_refl).
  - exact (H3 false (lit "</thi</think>nk>") (lit "</think>") eq_refl).
  - exact (H4 (lit "<think><think>") (block_open ++ lit "<think>") seen
              eq_refl).
  - exact (H5 (lit "</think></think>") (block_close ++ lit "</think>")
              eq_refl).
Defined.

(** * Further properties of the transducer *)

(** ** What partial mode keeps *)

Lemma kept_chunks_bound (buffer : list str) :
  length (kept_chunks buffer) <= 5
  /\ match kept_chunks buffer with
     | [] => True
     | chunk :: _ => has_close chunk = true
     end.
Proof.
  induction buffer as [|chunk following IH]; [split; [simpl; lia|exact I]|].
  cbn [kept_chunks]. destruct (has_close chunk) eqn:Hc; [|exact IH].
  destruct (length following <? 5) eqn:H5; [|exact IH].
  apply Nat.ltb_lt in H5. split; [simpl; lia|exact Hc].
Qed.

Lemma pipe_lines_total (lines : list upstream_line) (buffer : list str)
    (ctx : context) :
  ready_decisions buffer = [] ->
  exists events buffer' ctx',
    pipe_lines lines buffer ctx = Some (events, buffer', ctx')
    /\ (buffer' = [] \/ buffer' = kept_chunks (buffer ++ deltas_of lines)).
Proof.
  intros Hst. rewrite (pipe_lines_by_exit lines buffer ctx Hst).
  destruct (transform_seq_total
              (ready_decisions (buffer ++ deltas_of lines)) ctx)
    as (r1 & c1 & -> & _).
  cbn [bind].
  destruct (transform_seq_total
              (forced_decisions (kept_chunks (buffer ++ deltas_of lines))) c1)
    as (r2 & c2 & E2 & _).
  destruct (exit_of lines); rewrite ?E2; cbn [bind]; eauto 6.
Qed.

(** X1: after every call in partial mode at most 5 chunks stay buffered, and
    the oldest of them holds a ["</think>"]; the driver returns a trace for
    every sequence of lines and finishes with at most 5 chunks in the
    buffer. *)
Theorem buffer_holds_at_most_five :
  (forall (buffer : list str) (ctx : context),
      exists finalized buffer' ctx',
        try_finalize_chunks buffer ctx true = Some (finalized, buffer', ctx')
        /\ length buffer' <= 5
        /\ match buffer' with
           | [] => True
           | oldest :: _ => Py.contains think_close oldest = true
           end)
  /\ (forall lines : list upstream_line,
         exists events buffer ctx,
           pipe lines = Some (events, buffer, ctx) /\ length buffer <= 5).
Proof.
  split.
  - intros buffer ctx.
    destruct (try_finalize_chunks_total buffer ctx) as (fin & c & E & _).
    exists fin, (kept_chunks buffer), c. split; [exact E|].
    exact (kept_chunks_bound buffer).
  - intros lines.
    destruct (pipe_lines_total lines [] fresh eq_refl)
      as (ev & buf & c & E & [->| ->]).
    + exists ev, [], c. split; [exact E|simpl; lia].
    + exists ev, (kept_chunks ([] ++ deltas_of lines)), c.
      split; [exact E|]. apply kept_chunks_bound.
Qed.

(** ** Streams of plain text *)

Lemma plain_has_no_close (chunk : str) :
  plain chunk = true -> has_close chunk = false.
Proof.
  unfold plain, has_close. intros H. apply negb_true_iff in H.
  apply index_none_contains.
  now destruct (absent_k_gt _ (contains_false _ _ H)) as (_ & Hc & _).
Qed.

Lemma transform_plain (chunk : str) (is_last_think : bool) (ctx : context) :
  plain chunk = true ->
  transform_chunk chunk is_last_think ctx = Some (chunk, ctx).
Proof.
  unfold plain. intros H. apply negb_true_iff in H.
  destruct (absent_k_gt _ (contains_false _ _ H)) as (Ho & Hc & Hl).
  now apply transform_chunk_plain.
Qed.

Lemma pipe_lines_plain (chunks : list str) (tail : list upstream_line) :
  Forall (fun chunk => plain chunk = true) chunks ->
  forall ctx,
    pipe_lines (map Delta chunks ++ tail) [] ctx =
    '(events, buffer, ctx') <- pipe_lines tail [] ctx ;;
    Some (map Yield chunks ++ events, buffer, ctx').
Proof.
  induction 1 as [|chunk chunks Hp _ IH]; intros ctx.
  - cbn [map app]. now destruct (pipe_lines tail [] ctx) as [[[e b] c]|].
  - cbn [map app pipe_lines]. rewrite try_finalize_chunks_partial.
    cbn [ready_decisions kept_chunks]. rewrite (plain_has_no_close _ Hp).
    cbn [transform_seq ready_decisions kept_chunks].
    rewrite (transform_plain _ false ctx Hp). cbn [bind]. rewrite IH.
    now destruct (pipe_lines tail [] ctx) as [[[e b] c]|].
Qed.

(** X2: a stream of chunks none of which holds ["k>"] (so no marker and no
    leftover pattern) is passed through as it comes: every chunk is yielded
    unchanged on arrival, nothing waits in the buffer, and the context stays
    fresh; a closing ["[DONE]"] only adds the forced finalization of an empty
    buffer. *)
Theorem plain_stream_passes_through (chunks : list str) :
  Forall (fun chunk => plain chunk = true) chunks ->
  pipe (map Delta chunks) = Some (map Yield chunks, [], fresh)
  /\ pipe (map Delta chunks ++ [DoneMarker])
     = Some (map Yield chunks ++ [ForcedFinalization], [], fresh).
Proof.
  intros H. unfold pipe. split.
  - rewrite <- (app_nil_r (map Delta chunks)).
    rewrite (pipe_lines_plain chunks [] H). cbn [pipe_lines bind].
    now rewrite app_nil_r.
  - rewrite (pipe_lines_plain chunks [DoneMarker] H). reflexivity.
Qed.

Lemma plain_stream_passes_through_witness :
  pipe (map Delta [lit "Hello, "; lit "world"; lit "!"])
  = Some (map Yield [lit "Hello, "; lit "world"; lit "!"], [], fresh)
  /\ pipe (map Delta [lit "Hello, "; lit "world"; lit "!"] ++ [DoneMarker])
     = Some (map Yield [lit "Hello, "; lit "world"; lit "!"]
               ++ [ForcedFinalization], [], fresh).
Proof.
  apply plain_stream_passes_through. repeat constructor.
Defined.

(** ** Size and content of a transformed chunk *)

Lemma subseq_length {A : Type} (l1 l2 : list A) :
  subseq l1 l2 -> length l1 <= length l2.
Proof. induction 1; simpl; lia. Qed.

Lemma replace_from_deletes (old : str) (s : str) :
  forall skip, subseq (Py.replace_from old [] skip s) s.
Proof.
  induction s as [|c s IH]; intros skip; [apply subseq_nil|].
  cbn [Py.replace_from]. destruct skip as [|k].
  - destruct (Py.startswith old (c :: s)).
    + cbn [app]. apply subseq_skip, IH.
    + apply subseq_keep, IH.
  - apply subseq_skip, IH.
Qed.

Lemma strip_leftovers_deletes (result : str) :
  subseq (strip_leftovers result) result.
Proof.
  unfold strip_leftovers. generalize leftover_patterns as patterns.
  intros patterns. revert result.
  induction patterns as [|pattern patterns IH]; intros result;
    [apply subseq_refl|].
  cbn [fold_left]. eapply subseq_trans; [apply IH|].
  apply replace_from_deletes.
Qed.

Lemma close_loop_not_last_deletes (fuel : nat) :
  forall result result' : str,
    close_loop fuel false result = Some result' -> subseq result' result.
Proof.
  induction fuel as [|fuel IH]; intros result result';
    cbn [close_loop]; unfold close_step;
    destruct (Py.index think_close result) as [idx|] eqn:E; intros H;
    try discriminate H.
  - destruct (some_inj _ _ H). apply subseq_refl.
  - apply IH in H. apply (subseq_trans _ _ _ H).
    rewrite (index_split _ _ _ E) at 3. apply subseq_drop_middle.
  - destruct (some_inj _ _ H). apply subseq_refl.
Qed.

Lemma open_loop_length (fuel : nat) :
  forall (result result' : str) (ctx ctx' : context),
    open_loop fuel result ctx = Some (result', ctx') ->
    length result'
    <= length result + (if first_think_found ctx then 0 else 10).
Proof.
  induction fuel as [|fuel IH]; intros result result' ctx ctx';
    cbn [open_loop];
    destruct (open_step result ctx) as [[r c]|] eqn:E; intros H;
    try discriminate H.
  - destruct (some_pair_inj _ _ _ _ H) as [<- _]. lia.
  - apply IH in H. unfold open_step in E.
    destruct (Py.index think_open result) as [idx|] eqn:Ei; [|discriminate E].
    apply index_bound in Ei. change (length think_open) with 7 in *.
    destruct ctx as [[|]]; cbn [negb first_think_found] in *;
      destruct (some_pair_inj _ _ _ _ E) as [<- <-];
      cbn [first_think_found] in H;
      rewrite !length_app, length_firstn, length_skipn in H;
      change (length block_open) with 17 in H; lia.
  - destruct (some_pair_inj _ _ _ _ H) as [<- _]. lia.
Qed.

Lemma close_loop_length (is_last_think : bool) (fuel : nat) :
  forall result result' : str,
    close_loop fuel is_last_think result = Some result' ->
    length result' <= length result.
Proof.
  induction fuel as [|fuel IH]; intros result result';
    cbn [close_loop];
    destruct (close_step is_last_think result) as [r|] eqn:E; intros H;
    try discriminate H.
  - destruct (some_inj _ _ H). lia.
  - apply IH in H. apply close_step_decreases in E. lia.
  - destruct (some_inj _ _ H). lia.
Qed.

(** X3: a transformed chunk is never longer than the chunk, except by the
    10 characters that the one block-open decoration adds in place of the
    first ["<think>"] of a fresh context. *)
Theorem transform_chunk_length (chunk : str) (is_last_think : bool)
    (ctx : context) :
  exists result ctx',
    transform_chunk chunk is_last_think ctx = Some (result, ctx')
    /\ length result
       <= length chunk + (if first_think_found ctx then 0 else 10).
Proof.
  unfold transform_chunk.
  destruct (open_phase_total chunk ctx) as (r1 & c1 & Eo & _).
  destruct (close_phase_total is_last_think r1) as (r2 & Ec & _).
  rewrite Eo. cbn [bind]. rewrite Ec. cbn [bind].
  exists (strip_leftovers r2), c1. split; [reflexivity|].
  apply open_loop_length in Eo. apply close_loop_length in Ec.
  pose proof (subseq_length _ _ (strip_leftovers_deletes r2)). lia.
Qed.

(** X4: once the opener is seen, a chunk whose closing marker is not the
    last one is only cut: the result is the chunk with characters removed,
    nothing added and nothing reordered, and the context stays as it is. *)
Theorem transform_chunk_only_deletes (chunk : str) :
  exists result,
    transform_chunk chunk false seen = Some (result, seen)
    /\ subseq result chunk.
Proof.
  unfold transform_chunk.
  destruct (open_phase_seen chunk) as (r1 & Eo & Hs & _).
  destruct (close_phase_total false r1) as (r2 & Ec & _).
  rewrite Eo. cbn [bind]. rewrite Ec. cbn [bind].
  exists (strip_leftovers r2). split; [reflexivity|].
  apply (subseq_trans _ _ _ (strip_leftovers_deletes r2)).
  apply (subseq_trans _ _ _ (close_loop_not_last_deletes _ _ _ Ec)).
  exact Hs.
Qed.

(** ** Lines the driver does not act on *)

(** X5: once a line ends the loop (["[DONE]"], a [finish_reason], a
    malformed JSON line or an exception), what the upstream sends after it
    is not read: the trace, the buffer and the context are those of the
    lines up to the ending one. *)
Theorem lines_after_exit_unread (before after : list upstream_line) :
  exit_of before <> ExitExhausted ->
  pipe (before ++ after) = pipe before.
Proof.
  unfold pipe. generalize (@nil str) as buffer. generalize fresh as ctx.
  induction before as [|line rest IH]; intros ctx buffer H;
    [now elim H|].
  destruct line; cbn [app pipe_lines exit_of] in *;
    try reflexivity; try (now apply IH).
  destruct (try_finalize_chunks _ ctx true) as [[[fin buf] c]|];
    [|reflexivity].
  cbn [bind]. now rewrite IH.
Qed.

Lemma lines_after_exit_unread_witness :
  pipe ([Delta (lit "a</think>"); DoneMarker] ++ [Delta (lit "b"); Raises])
  = pipe [Delta (lit "a</think>"); DoneMarker].
Proof.
  apply lines_after_exit_unread. discriminate.
Defined.

(** X6: lines that do not start with ["data:"] and data lines without
    choices change nothing: the driver behaves as if they had not been
    sent. *)
Theorem skipped_lines_ignored (lines : list upstream_line) :
  pipe (filter (fun line => negb (skipped line)) lines) = pipe lines.
Proof.
  unfold pipe. generalize (@nil str) as buffer. generalize fresh as ctx.
  induction lines as [|line rest IH]; intros ctx buffer; [reflexivity|].
  destruct line; cbn [filter skipped negb pipe_lines];
    try reflexivity; try apply IH.
  destruct (try_finalize_chunks _ ctx true) as [[[fin buf] c]|];
    [|reflexivity].
  cbn [bind]. now rewrite IH.
Qed.

(** * The model list and the preparation of the request *)

(** ** [split] and [join] *)

Lemma split_not_nil (sep : ascii) (s : str) : Builtins.split sep s <> [].
Proof.
  induction s as [|c s IH]; cbn [Builtins.split]; [discriminate|].
  destruct (Ascii.eqb c sep); [discriminate|].
  destruct (Builtins.split sep s); [contradiction|discriminate].
Qed.

Lemma split_length (sep : ascii) (s : str) :
  length (Builtins.split sep s) = S (count_occ ascii_dec s sep).
Proof.
  induction s as [|c s IH]; [reflexivity|].
  cbn [Builtins.split count_occ].
  destruct (Ascii.eqb c sep) eqn:E.
  - apply Ascii.eqb_eq in E. subst c.
    destruct (ascii_dec sep sep); [|contradiction]. simpl. now rewrite IH.
  - apply Ascii.eqb_neq in E.
    destruct (ascii_dec c sep); [contradiction|].
    destruct (Builtins.split sep s); simpl in *; [discriminate IH|exact IH].
Qed.

Lemma split_no_sep (sep : ascii) (s : str) :
  Forall (fun piece => ~ In sep piece) (Builtins.split sep s).
Proof.
  induction s as [|c s IH]; cbn [Builtins.split].
  - constructor; [intros []|constructor].
  - destruct (Ascii.eqb c sep) eqn:E.
    + constructor; [intros []|exact IH].
    + apply Ascii.eqb_neq in E.
      destruct (Builtins.split sep s) as [|piece pieces].
      * constructor; [|constructor]. intros [H|[]]. congruence.
      * inversion IH as [|? ? Hp Hps]; subst. constructor; [|exact Hps].
        intros [H|H]; [congruence|contradiction].
Qed.

Lemma join_cons (sep : ascii) (piece : str) (pieces : list str) :
  pieces <> [] ->
  Builtins.join sep (piece :: pieces)
  = piece ++ sep :: Builtins.join sep pieces.
Proof. destruct pieces; [contradiction|reflexivity]. Qed.

Lemma join_split (sep : ascii) (s : str) :
  Builtins.join sep (Builtins.split sep s) = s.
Proof.
  induction s as [|c s IH]; [reflexivity|].
  cbn [Builtins.split]. destruct (Ascii.eqb c sep) eqn:E.
  - apply Ascii.eqb_eq in E. subst c.
    rewrite join_cons by apply split_not_nil. now rewrite IH.
  - pose proof (split_not_nil sep s) as Hne.
    destruct (Builtins.split sep s) as [|piece pieces]; [contradiction|].
    destruct pieces as [|piece' pieces].
    + cbn [Builtins.join] in *. now rewrite IH.
    + rewrite join_cons in * by discriminate. cbn [app]. now rewrite IH.
Qed.

Lemma split_app_no_sep (sep : ascii) (piece s : str) :
  ~ In sep piece ->
  Builtins.split sep (piece ++ sep :: s) = piece :: Builtins.split sep s.
Proof.
  induction piece as [|c piece IH]; intros H; cbn [app Builtins.split].
  - now rewrite Ascii.eqb_refl.
  - destruct (Ascii.eqb c sep) eqn:E.
    + apply Ascii.eqb_eq in E. subst c. exfalso. apply H. now left.
    + rewrite IH; [reflexivity|]. intros Hin. apply H. now right.
Qed.

Lemma split_whole (sep : ascii) (piece : str) :
  ~ In sep piece -> Builtins.split sep piece = [piece].
Proof.
  induction piece as [|c piece IH]; intros H; cbn [Builtins.split];
    [reflexivity|].
  destruct (Ascii.eqb c sep) eqn:E.
  - apply Ascii.eqb_eq in E. subst c. exfalso. apply H. now left.
  - rewrite IH; [reflexivity|]. intros Hin. apply H. now right.
Qed.

Lemma split_join (sep : ascii) (pieces : list str) :
  pieces <> [] ->
  Forall (fun piece => ~ In sep piece) pieces ->
  Builtins.split sep (Builtins.join sep pieces) = pieces.
Proof.
  intros Hne H. induction H as [|piece pieces Hp Hps IH]; [contradiction|].
  destruct pieces as [|piece' pieces].
  - cbn [Builtins.join]. now apply split_whole.
  - rewrite join_cons by discriminate.
    rewrite split_app_no_sep by exact Hp. now rewrite IH by discriminate.
Qed.

(** ** [strip] *)

Lemma lstrip_head (s : str) :
  match Builtins.lstrip s with
  | [] => True
  | c :: _ => Builtins.isspace c = false
  end.
Proof.
  induction s as [|c s IH]; [exact I|].
  cbn [Builtins.lstrip]. destruct (Builtins.isspace c) eqn:E; [exact IH|exact E].
Qed.

Lemma lstrip_incl (s : str) (x : ascii) :
  In x (Builtins.lstrip s) -> In x s.
Proof.
  induction s as [|c s IH]; [intros []|].
  cbn [Builtins.lstrip]. destruct (Builtins.isspace c).
  - intros H. right. now apply IH.
  - trivial.
Qed.

Lemma lstrip_clean (s : str) :
  match s with [] => True | c :: _ => Builtins.isspace c = false end ->
  Builtins.lstrip s = s.
Proof.
  destruct s as [|c s]; [reflexivity|]. cbn [Builtins.lstrip]. now intros ->.
Qed.

(** A text that ends in a character that is no white space keeps it. *)
Lemma lstrip_keeps_last (s : str) (c : ascii) :
  Builtins.isspace c = false ->
  exists s', Builtins.lstrip (s ++ [c]) = s' ++ [c].
Proof.
  intros Hc. induction s as [|d s IH]; cbn [app Builtins.lstrip].
  - rewrite Hc. now exists [].
  - destruct (Builtins.isspace d); [exact IH|]. now exists (d :: s).
Qed.

Lemma strip_incl (s : str) (x : ascii) : In x (Builtins.strip s) -> In x s.
Proof.
  unfold Builtins.strip, Builtins.rstrip. intros H.
  apply (proj2 (in_rev _ _)), lstrip_incl in H.
  apply (proj2 (in_rev _ _)) in H. now apply lstrip_incl.
Qed.

Lemma strip_trimmed (s : str) : trimmed (Builtins.strip s).
Proof.
  unfold trimmed, Builtins.strip, Builtins.rstrip. split.
  - pose proof (lstrip_head s) as Hh.
    destruct (Builtins.lstrip s) as [|c t]; [exact I|].
    cbn [rev]. destruct (lstrip_keeps_last (rev t) c Hh) as [u ->].
    rewrite rev_app_distr. exact Hh.
  - rewrite rev_involutive. apply lstrip_head.
Qed.

Lemma strip_of_trimmed (s : str) : trimmed s -> Builtins.strip s = s.
Proof.
  unfold trimmed, Builtins.strip, Builtins.rstrip. intros [Hh Hl].
  rewrite (lstrip_clean s Hh), (lstrip_clean (rev s) Hl).
  apply rev_involutive.
Qed.

(** ** [pipes] *)

(** X7: [pipes] never returns an empty list: it has one entry more than
    [API_MODEL] has commas (one entry with an empty id for an empty valve).
    In every entry the id and the name are the same text, free of commas,
    with no white space at either end. *)
Theorem pipes_entries (API_MODEL : str) :
  length (pipes API_MODEL) = S (count_occ ascii_dec API_MODEL ","%char)
  /\ Forall (fun entry =>
               entry_id entry = entry_name entry
               /\ ~ In ","%char (entry_id entry)
               /\ trimmed (entry_id entry))
       (pipes API_MODEL).
Proof.
  unfold pipes. split.
  - rewrite length_map. apply split_length.
  - apply Forall_map. cbn [entry_id entry_name].
    eapply Forall_impl; [|apply (split_no_sep ","%char API_MODEL)].
    intros piece Hp. split; [reflexivity|]. split.
    + intros Hin. apply Hp. now apply strip_incl.
    + apply strip_trimmed.
Qed.

(** X8: for a valve written as model names joined by commas, each name free
    of commas, [pipes] gives back the names in order, each without the
    white space around it; names without white space around them come back
    exactly. *)
Theorem pipes_of_joined_names (names : list str) :
  names <> [] ->
  Forall (fun n => ~ In ","%char n) names ->
  map entry_id (pipes (Builtins.join ","%char names))
  = map Builtins.strip names
  /\ (Forall trimmed names ->
      map entry_id (pipes (Builtins.join ","%char names)) = names).
Proof.
  intros Hne Hc. unfold pipes. rewrite split_join by assumption.
  rewrite map_map. cbn [entry_id]. split; [reflexivity|].
  intros Ht. rewrite <- (map_id names) at 2.
  apply map_ext_in. intros n Hin. apply strip_of_trimmed.
  rewrite Forall_forall in Ht. now apply Ht.
Qed.

Lemma pipes_of_joined_names_witness :
  map entry_id (pipes (lit "deepseek-reasoner, deepseek-chat"))
  = [lit "deepseek-reasoner"; lit "deepseek-chat"].
Proof.
  destruct (pipes_of_joined_names
              [lit "deepseek-reasoner"; lit " deepseek-chat"])
    as [H _].
  - discriminate.
  - repeat constructor; vm_compute; intuition discriminate.
  - exact H.
Defined.

(** ** The model id of a request *)

Lemma index_char_first (c : ascii) (before after : str) :
  ~ In c before ->
  Py.index [c] (before ++ c :: after) = Some (length before).
Proof.
  induction before as [|d before IH]; intros H.
  - cbn [app]. rewrite index_cons. cbn [Py.startswith].
    now rewrite Ascii.eqb_refl.
  - cbn [app]. rewrite index_cons. cbn [Py.startswith].
    destruct (Ascii.eqb c d) eqn:E.
    + apply Ascii.eqb_eq in E. subst d. exfalso. apply H. now left.
    + cbn [andb]. rewrite IH; [reflexivity|].
      intros Hin. apply H. now right.
Qed.

(** X9: the model id sent upstream is what follows the first ["."] of the
    model name of the request, later dots included; a name without ["."] is
    sent as it is. *)
Theorem request_model_id_after_first_dot :
  (forall model : str,
      Py.contains (lit ".") model = false -> request_model_id model = model)
  /\ (forall prefix rest : str,
         ~ In "."%char prefix ->
         request_model_id (prefix ++ "."%char :: rest) = rest).
Proof.
  unfold request_model_id, Builtins.split_once. split.
  - intros model H. apply contains_false in H.
    change (lit ".") with ["."%char] in H. now rewrite H.
  - intros prefix rest H. rewrite (index_char_first _ _ _ H). cbn [last].
    rewrite skipn_app, skipn_all2 by lia.
    replace (length prefix + 1 - length prefix) with 1 by lia.
    reflexivity.
Qed.

Lemma request_model_id_after_first_dot_witness :
  request_model_id (lit "deepseek-reasoner") = lit "deepseek-reasoner"
  /\ request_model_id (lit "ragflow_pipe.deepseek-r1.v2")
     = lit "deepseek-r1.v2".
Proof.
  destruct request_model_id_after_first_dot as [H1 H2]. split.
  - apply H1. reflexivity.
  - apply (H2 (lit "ragflow_pipe") (lit "deepseek-r1.v2")).
    vm_compute. intuition discriminate.
Defined.

(** ** The correction of consecutive identical roles *)

Lemma str_eqb_eq (a b : str) : str_eqb a b = true <-> a = b.
Proof.
  unfold str_eqb. destruct (list_eq_dec ascii_dec a b); split; congruence.
Qed.

Lemma str_eqb_neq (a b : str) : str_eqb a b = false <-> a <> b.
Proof.
  unfold str_eqb. destruct (list_eq_dec ascii_dec a b); split; congruence.
Qed.

Lemma alt_role_differs (r : str) : alt_role r <> r.
Proof.
  unfold alt_role. destruct (str_eqb r (lit "user")) eqn:E.
  - apply str_eqb_eq in E. subst r. discriminate.
  - apply str_eqb_neq in E. congruence.
Qed.

Lemma nth_error_after {A : Type} (pre l : list A) (k : nat) :
  nth_error (pre ++ l) (length pre + k) = nth_error l k.
Proof. induction pre as [|x pre IH]; [reflexivity|exact IH]. Qed.

Lemma insert_after {A : Type} (pre l : list A) (k : nat) (x : A) :
  Builtins.insert (length pre + k) x (pre ++ l)
  = pre ++ Builtins.insert k x l.
Proof.
  unfold Builtins.insert. rewrite firstn_app_2, skipn_app.
  rewrite skipn_all2 by lia.
  replace (length pre + k - length pre) with k by lia.
  now rewrite <- app_assoc.
Qed.

Lemma two_last {A : Type} (l : list A) (i : nat) :
  length l = S (S i) ->
  exists pre a b, l = pre ++ [a; b] /\ length pre = i.
Proof.
  intros H.
  destruct (exists_last (l := l)) as (l1 & b & ->);
    [intros ->; discriminate H|].
  rewrite length_app in H. simpl in H.
  destruct (exists_last (l := l1)) as (pre & a & ->);
    [intros ->; discriminate H|].
  rewrite length_app in H. simpl in H.
  exists pre, a, b. split; [now rewrite <- app_assoc|lia].
Qed.

Lemma with_fillers_head (m : message) (rest : list message) :
  exists tail, with_fillers (m :: rest) = m :: tail.
Proof. cbn [with_fillers]. eauto. Qed.

Lemma with_fillers_snoc (pre : list message) (a b : message) :
  with_fillers (pre ++ [a; b])
  = with_fillers (pre ++ [a])
    ++ (if str_eqb (role b) (role a) then [unfinished (role b); b] else [b]).
Proof.
  induction pre as [|p pre IH].
  - cbn [app with_fillers]. now destruct (str_eqb (role b) (role a)).
  - destruct pre as [|q pre].
    + cbn [app] in *. cbn [with_fillers] in *.
      destruct (str_eqb (role a) (role p));
        destruct (str_eqb (role b) (role a)); reflexivity.
    + change ((p :: q :: pre) ++ [a; b]) with (p :: (q :: pre) ++ [a; b]).
      change ((p :: q :: pre) ++ [a]) with (p :: (q :: pre) ++ [a]).
      remember ((q :: pre) ++ [a; b]) as l2 eqn:E2.
      remember ((q :: pre) ++ [a]) as l1 eqn:E1.
      cbn [with_fillers]. rewrite IH.
      rewrite E2, E1. cbn [app].
      now destruct (str_eqb (role q) (role p)).
Qed.

(** The loop from index [i] down works on the first [i + 1] messages and
    leaves the rest alone. *)
Lemma correct_roles_from_fillers (i : nat) :
  forall pre rest : list message,
    length pre = S i ->
    correct_roles_from i (pre ++ rest) = with_fillers pre ++ rest.
Proof.
  induction i as [|i IH]; intros pre rest Hlen.
  - destruct pre as [|m [|m' pre]]; try discriminate Hlen. reflexivity.
  - destruct (two_last pre i Hlen) as (pre' & a & b & -> & Hp). subst i.
    rewrite <- app_assoc. cbn [app].
    assert (nth_error (pre' ++ a :: b :: rest) (S (length pre')) = Some b)
      as H1.
    { replace (S (length pre')) with (length pre' + 1) by lia.
      now rewrite nth_error_after. }
    assert (forall x,
               Builtins.insert (S (length pre')) x (pre' ++ a :: b :: rest)
               = (pre' ++ [a]) ++ x :: b :: rest) as Hins.
    { intros x. replace (S (length pre')) with (length pre' + 1) by lia.
      rewrite insert_after. now rewrite <- app_assoc. }
    cbn [correct_roles_from].
    rewrite H1, (nth_error_middle pre' a (b :: rest)), Hins.
    rewrite with_fillers_snoc.
    destruct (str_eqb (role b) (role a)).
    + rewrite IH by (rewrite length_app; simpl; lia).
      now rewrite <- app_assoc.
    + change (pre' ++ a :: b :: rest) with (pre' ++ [a] ++ b :: rest).
      rewrite app_assoc, IH by (rewrite length_app; simpl; lia).
      now rewrite <- app_assoc.
Qed.

Lemma correct_roles_fillers (messages : list message) :
  correct_roles messages = with_fillers messages.
Proof.
  unfold correct_roles. destruct messages as [|m rest]; [reflexivity|].
  rewrite <- (app_nil_r (m :: rest)) at 2.
  rewrite correct_roles_from_fillers by (simpl; lia).
  apply app_nil_r.
Qed.

Lemma with_fillers_two (m m' : message) (rest : list message) :
  with_fillers (m :: m' :: rest)
  = m :: (if str_eqb (role m') (role m)
          then unfinished (role m') :: with_fillers (m' :: rest)
          else with_fillers (m' :: rest)).
Proof. reflexivity. Qed.

Lemma with_fillers_alternate (messages : list message) :
  roles_alternate (with_fillers messages).
Proof.
  induction messages as [|m rest IH]; [exact I|].
  destruct rest as [|m' rest]; [split; exact I|].
  rewrite with_fillers_two.
  destruct (with_fillers_head m' rest) as [tail E]. rewrite E in *.
  destruct (str_eqb (role m') (role m)) eqn:Er.
  - apply str_eqb_eq in Er. cbn [roles_alternate unfinished role].
    split; [|split].
    + rewrite <- Er. intros H. symmetry in H. now apply alt_role_differs in H.
    + apply alt_role_differs.
    + exact IH.
  - apply str_eqb_neq in Er. cbn [roles_alternate].
    split; [congruence|exact IH].
Qed.

Lemma with_fillers_unchanged (messages : list message) :
  roles_alternate messages -> with_fillers messages = messages.
Proof.
  induction messages as [|m rest IH]; [reflexivity|].
  destruct rest as [|m' rest]; [reflexivity|].
  intros [Hne Hrest]. rewrite with_fillers_two.
  replace (str_eqb (role m') (role m)) with false
    by (symmetry; apply str_eqb_neq; congruence).
  now rewrite (IH Hrest).
Qed.

Lemma str_eqb_sym (a b : str) : str_eqb a b = str_eqb b a.
Proof.
  unfold str_eqb.
  destruct (list_eq_dec ascii_dec a b); destruct (list_eq_dec ascii_dec b a);
    congruence.
Qed.

Lemma with_fillers_keeps (messages : list message) :
  subseq messages (with_fillers messages)
  /\ length (with_fillers messages)
     = length messages + same_role_pairs messages.
Proof.
  induction messages as [|m rest [IHs IHl]];
    [split; [apply subseq_nil|reflexivity]|].
  destruct rest as [|m' rest];
    [split; [apply subseq_refl|reflexivity]|].
  rewrite with_fillers_two.
  change (same_role_pairs (m :: m' :: rest))
    with ((if str_eqb (role m) (role m') then 1 else 0)
          + same_role_pairs (m' :: rest)).
  rewrite (str_eqb_sym (role m) (role m')).
  destruct (str_eqb (role m') (role m)).
  - split; [apply subseq_keep, subseq_skip, IHs|].
    cbn [length]. rewrite IHl. cbn [length]. lia.
  - split; [apply subseq_keep, IHs|].
    cbn [length]. rewrite IHl. cbn [length]. lia.
Qed.

Lemma with_fillers_last (messages : list message) (d : message) :
  last (with_fillers messages) d = last messages d.
Proof.
  induction messages as [|m rest IH]; [reflexivity|].
  destruct rest as [|m' rest]; [reflexivity|].
  rewrite with_fillers_two.
  destruct (with_fillers_head m' rest) as [tail E]. rewrite E in *.
  change (last (m :: m' :: rest) d) with (last (m' :: rest) d).
  destruct (str_eqb (role m') (role m)); cbn [last] in *; exact IH.
Qed.

(** X10: after the correction no two neighbouring messages have the same
    role: between every two neighbours of one role the loop has put a
    filler message of the other kind (["assistant"] between two ["user"]
    messages, ["user"] otherwise) with the content
    ["[Unfinished thinking]"]. *)
Theorem correct_roles_alternate (messages : list message) :
  roles_alternate (correct_roles messages)
  /\ correct_roles messages = with_fillers messages
  /\ (forall m1 m2 : message,
         role m1 = role m2 ->
         correct_roles [m1; m2]
         = [m1;
            {| role := if str_eqb (role m2) (lit "user")
                       then lit "assistant" else lit "user";
               content := lit "[Unfinished thinking]" |};
            m2]).
Proof.
  rewrite correct_roles_fillers. split; [apply with_fillers_alternate|].
  split; [reflexivity|].
  intros m1 m2 H. rewrite correct_roles_fillers, with_fillers_two.
  replace (str_eqb (role m2) (role m1)) with true
    by (symmetry; now apply str_eqb_eq).
  reflexivity.
Qed.

Lemma correct_roles_alternate_witness :
  correct_roles
    [{| role := lit "user"; content := lit "hi" |};
     {| role := lit "user"; content := lit "are you there?" |}]
  = [{| role := lit "user"; content := lit "hi" |};
     {| role := lit "assistant"; content := lit "[Unfinished thinking]" |};
     {| role := lit "user"; content := lit "are you there?" |}].
Proof.
  destruct (correct_roles_alternate []) as (_ & _ & H).
  exact (H {| role := lit "user"; content := lit "hi" |}
           {| role := lit "user"; content := lit "are you there?" |}
           eq_refl).
Defined.

(** X11: the correction drops and reorders nothing: the messages of the
    request are all there, in their order, with one filler more for every
    pair of neighbours of the same role, and the last message of the
    request is still the last. *)
Theorem correct_roles_keeps_messages (messages : list message) :
  subseq messages (correct_roles messages)
  /\ length (correct_roles messages)
     = length messages + same_role_pairs messages
  /\ hd_error (correct_roles messages) = hd_error messages
  /\ (forall d, last (correct_roles messages) d = last messages d).
Proof.
  rewrite correct_roles_fillers.
  destruct (with_fillers_keeps messages) as [Hs Hl].
  split; [exact Hs|]. split; [exact Hl|]. split.
  - now destruct messages.
  - intros d. apply with_fillers_last.
Qed.

(** X12: a message list whose roles already alternate is left as it is,
    and correcting a second time changes nothing. *)
Theorem correct_roles_idempotent (messages : list message) :
  (roles_alternate messages -> correct_roles messages = messages)
  /\ correct_roles (correct_roles messages) = correct_roles messages.
Proof.
  split.
  - intros H. rewrite correct_roles_fillers. now apply with_fillers_unchanged.
  - rewrite !correct_roles_fillers.
    apply with_fillers_unchanged, with_fillers_alternate.
Qed.

Lemma correct_roles_idempotent_witness :
  correct_roles
    [{| role := lit "system"; content := lit "s" |};
     {| role := lit "user"; content := lit "u" |};
     {| role := lit "assistant"; content := lit "a" |}]
  = [{| role := lit "system"; content := lit "s" |};
     {| role := lit "user"; content := lit "u" |};
     {| role := lit "assistant"; content := lit "a" |}].
Proof.
  apply correct_roles_idempotent. cbn [roles_alternate role].
  repeat split; discriminate.
Defined.

(** * The LaTeX spacing filter *)

(** ** The matcher finds what the pattern describes *)

Lemma lazy_dots_sound (s : str) :
  forall before n g k res,
    Re.lazy_dots before n s g k = Some res ->
    exists st',
      Re.steps Re.LazyDots
        {| Re.prev := before; Re.pos := n; Re.ahead := s; Re.group1 := g |}
        st'
      /\ k st' = Some res.
Proof.
  induction s as [|c s IH]; intros before n g k res; cbn [Re.lazy_dots];
    destruct (k _) as [st|] eqn:Ek; intros H.
  - eexists. split; [apply Re.steps_dots_stop|]. now rewrite Ek.
  - discriminate H.
  - eexists. split; [apply Re.steps_dots_stop|]. now rewrite Ek.
  - destruct (Ascii.eqb c nl) eqn:En; [discriminate H|].
    apply Ascii.eqb_neq in En.
    destruct (IH _ _ _ _ _ H) as (st' & Hs & Hk).
    exists st'. split; [|exact Hk].
    eapply Re.steps_dots_more; [reflexivity|exact En|exact Hs].
Qed.

Lemma run_sound (r : Re.regex) :
  forall st k res,
    Re.run r st k = Some res ->
    exists st', Re.steps r st st' /\ k st' = Some res.
Proof.
  induction r as [c| |r1 IH1 r2 IH2|r IH|c|c]; intros st k res H;
    cbn [Re.run] in H.
  - destruct (Re.ahead st) as [|d s'] eqn:Ea; [discriminate H|].
    destruct (Ascii.eqb c d) eqn:E; [|discriminate H].
    apply Ascii.eqb_eq in E. subst d.
    eexists. split; [apply Re.steps_lit; exact Ea|exact H].
  - destruct st as [p n a g]. cbn in H. now apply lazy_dots_sound.
  - destruct (IH1 _ _ _ H) as (st1 & Hs1 & H1).
    destruct (IH2 _ _ _ H1) as (st2 & Hs2 & H2).
    exists st2. split; [|exact H2]. eapply Re.steps_seq; eassumption.
  - destruct (IH _ _ _ H) as (st1 & Hs1 & H1).
    eexists. split; [apply Re.steps_group; exact Hs1|exact H1].
  - exists st. split.
    + apply Re.steps_not_behind.
      destruct (Re.prev st) as [d|]; [|discriminate].
      destruct (Ascii.eqb c d) eqn:E; [discriminate H|].
      apply Ascii.eqb_neq in E. congruence.
    + destruct (Re.prev st) as [d|]; [|exact H].
      now destruct (Ascii.eqb c d).
  - exists st. split.
    + apply Re.steps_not_ahead. intros s' Ea. rewrite Ea in H.
      now rewrite Ascii.eqb_refl in H.
    + destruct (Re.ahead st) as [|d s']; [exact H|].
      now destruct (Ascii.eqb c d).
Qed.

(** A pattern only moves forward, over the text it matched. *)
Lemma steps_advance (r : Re.regex) (st st' : Re.state) :
  Re.steps r st st' ->
  exists m, Re.ahead st = m ++ Re.ahead st'
            /\ Re.pos st' = Re.pos st + length m.
Proof.
  induction 1 as [c st s' Ha|st|st st' c s' Ha Hc _ (m & Hm & Hp)
                 |r1 r2 st st1 st2 _ (m1 & Hm1 & Hp1) _ (m2 & Hm2 & Hp2)
                 |r st st' _ (m & Hm & Hp)|c st _|c st _]; cbn in *.
  - exists [c]. split; [exact Ha|simpl; lia].
  - exists []. split; [reflexivity|simpl; lia].
  - exists (c :: m). split; [now rewrite Ha, Hm|simpl; lia].
  - exists (m1 ++ m2). rewrite length_app.
    split; [now rewrite Hm1, Hm2, app_assoc|lia].
  - exists m. split; assumption.
  - exists []. split; [reflexivity|simpl; lia].
  - exists []. split; [reflexivity|simpl; lia].
Qed.

Lemma steps_lit_inv (c : ascii) (st st' : Re.state) :
  Re.steps (Re.Lit c) st st' ->
  exists s', Re.ahead st = c :: s'
             /\ Re.ahead st' = s' /\ Re.pos st' = S (Re.pos st).
Proof. inversion 1; subst. cbn. eauto. Qed.

Lemma steps_seq_inv (r1 r2 : Re.regex) (st st' : Re.state) :
  Re.steps (Re.Seq r1 r2) st st' ->
  exists st1, Re.steps r1 st st1 /\ Re.steps r2 st1 st'.
Proof. inversion 1; subst. eauto. Qed.

Lemma steps_group_inv (r : Re.regex) (st st' : Re.state) :
  Re.steps (Re.Group r) st st' ->
  exists st1, Re.steps r st st1
              /\ Re.pos st' = Re.pos st1
              /\ Re.ahead st' = Re.ahead st1
              /\ Re.group1 st' = Some (Re.pos st, Re.pos st1).
Proof. inversion 1; subst. cbn. eauto 6. Qed.

Lemma steps_look_inv (c : ascii) (st st' : Re.state) :
  Re.steps (Re.NotBehind c) st st' \/ Re.steps (Re.NotAhead c) st st' ->
  st' = st.
Proof. intros [H|H]; inversion H; reflexivity. Qed.

Lemma group_matches_whole (c : ascii) (r : Re.regex) :
  matches_whole c (Re.Group (Re.Seq (Re.Lit c) r)).
Proof.
  intros before s st H. apply run_sound in H.
  destruct H as (st' & Hs & E). injection E as <-.
  apply steps_group_inv in Hs. destruct Hs as (st1 & Hs & Hp & _ & Hg).
  apply steps_seq_inv in Hs. destruct Hs as (sta & Hl & Hr).
  apply steps_lit_inv in Hl. destruct Hl as (s' & Ha & Ha' & Hpa).
  apply steps_advance in Hr. destruct Hr as (m & Hm & Hpm).
  cbn in *. exists m, (Re.ahead st1).
  rewrite Ha, <- Hm, Ha'. split; [reflexivity|].
  rewrite Hg, Hp, Hpm, Hpa. split; reflexivity.
Qed.

Lemma guarded_group_matches_whole (c d e : ascii) (r : Re.regex) :
  matches_whole c
    (Re.Seq (Re.NotBehind d)
       (Re.Seq (Re.Group (Re.Seq (Re.Lit c) r)) (Re.NotAhead e))).
Proof.
  intros before s st H. apply run_sound in H.
  destruct H as (st' & Hs & E). injection E as <-.
  apply steps_seq_inv in Hs. destruct Hs as (st0 & Hb & Hs).
  rewrite (steps_look_inv d _ _ (or_introl Hb)) in Hs. clear Hb st0.
  apply steps_seq_inv in Hs. destruct Hs as (stg & Hs & Ha).
  rewrite (steps_look_inv e _ _ (or_intror Ha)). clear Ha.
  apply steps_group_inv in Hs. destruct Hs as (st1 & Hs & Hp & Hah & Hg).
  apply steps_seq_inv in Hs. destruct Hs as (sta & Hl & Hr).
  apply steps_lit_inv in Hl. destruct Hl as (s' & Ha & Ha' & Hpa).
  apply steps_advance in Hr. destruct Hr as (m & Hm & Hpm).
  cbn in *. exists m, (Re.ahead st1).
  rewrite Ha, <- Hm, Ha'. split; [reflexivity|].
  rewrite Hg, Hp, Hpm, Hpa. split; reflexivity.
Qed.

Lemma display_dollars_whole : matches_whole "$" display_dollars.
Proof. apply group_matches_whole. Qed.

Lemma inline_dollars_whole : matches_whole "$" inline_dollars.
Proof. apply guarded_group_matches_whole. Qed.

Lemma display_brackets_whole : matches_whole "\" display_brackets.
Proof. apply group_matches_whole. Qed.

Lemma inline_parens_whole : matches_whole "\" inline_parens.
Proof. apply group_matches_whole. Qed.

(** ** [re.sub] with the template [r" \1 "] *)

Lemma subseq_app {A : Type} (a a' b b' : list A) :
  subseq a a' -> subseq b b' -> subseq (a ++ b) (a' ++ b').
Proof.
  intros Ha Hb. induction Ha as [|x a a' Ha IH|x a a' Ha IH]; cbn [app].
  - exact Hb.
  - now apply subseq_skip.
  - now apply subseq_keep.
Qed.

Lemma despace_app (a b : str) : despace (a ++ b) = despace a ++ despace b.
Proof. apply filter_app. Qed.

Section Sub.

Variable first : ascii.
Variable r : Re.regex.
Hypothesis whole : matches_whole first r.

Lemma match_here_nil (before : option ascii) :
  Re.match_here r before [] = None.
Proof.
  destruct (Re.match_here r before []) as [st|] eqn:E; [|reflexivity].
  destruct (whole _ _ _ E) as (m & t & H & _). discriminate H.
Qed.

Lemma match_here_other (before : option ascii) (c : ascii) (s : str) :
  c <> first -> Re.match_here r before (c :: s) = None.
Proof.
  intros Hc.
  destruct (Re.match_here r before (c :: s)) as [st|] eqn:E; [|reflexivity].
  destruct (whole _ _ _ E) as (m & t & H & _). congruence.
Qed.

Lemma sub_from_other (before : option ascii) (c : ascii) (s : str) :
  c <> first ->
  Re.sub_from r 0 before (c :: s) = c :: Re.sub_from r 0 (Some c) s.
Proof.
  intros Hc. cbn [Re.sub_from]. now rewrite match_here_other.
Qed.

Lemma sub_from_skip (m t : str) :
  forall before,
    Re.sub_from r (length m) before (m ++ t)
    = Re.sub_from r 0 (after before m) t.
Proof.
  induction m as [|x m IH]; intros before; [reflexivity|].
  cbn [length app Re.sub_from]. apply IH.
Qed.

(** At a match, the matched text is put between two spaces and the search
    goes on behind it. *)
Lemma sub_from_match (before : option ascii) (s : str) (st : Re.state) :
  Re.match_here r before s = Some st ->
  exists m t,
    s = first :: m ++ t
    /\ Re.pos st = S (length m)
    /\ Re.sub_from r 0 before s
       = " "%char :: first :: m ++ " "%char
           :: Re.sub_from r 0 (after (Some first) m) t.
Proof.
  intros E. destruct (whole _ _ _ E) as (m & t & -> & Hp & Hg).
  exists m, t. split; [reflexivity|]. split; [exact Hp|].
  cbn [Re.sub_from]. rewrite E, Hp. unfold Re.expand. rewrite Hg.
  cbn [skipn firstn Nat.sub app].
  rewrite firstn_app, Nat.sub_diag, firstn_all, app_nil_r.
  rewrite sub_from_skip, <- app_assoc. reflexivity.
Qed.

(** Text that holds no first character of a match is copied. *)
Lemma sub_from_copy (a s : str) :
  ~ In first a ->
  forall before,
    Re.sub_from r 0 before (a ++ s)
    = a ++ Re.sub_from r 0 (after before a) s.
Proof.
  induction a as [|c a IH]; intros H before; [reflexivity|].
  cbn [app]. rewrite sub_from_other by (intros ->; apply H; now left).
  rewrite IH by (intros Hin; apply H; now right). reflexivity.
Qed.

Lemma sub_from_nil (before : option ascii) : Re.sub_from r 0 before [] = [].
Proof. cbn [Re.sub_from]. now rewrite match_here_nil. Qed.

Lemma sub_from_plain (a : str) (before : option ascii) :
  ~ In first a -> Re.sub_from r 0 before a = a.
Proof.
  intros H. rewrite <- (app_nil_r a) at 1.
  rewrite sub_from_copy by exact H. rewrite sub_from_nil. apply app_nil_r.
Qed.

(** The substitution only adds spaces. *)
Lemma sub_from_spaces (s : str) :
  forall skip before,
    despace (Re.sub_from r skip before s) = despace (skipn skip s)
    /\ subseq (skipn skip s) (Re.sub_from r skip before s).
Proof.
  induction s as [|c s IH]; intros skip before.
  - destruct skip; [rewrite sub_from_nil|]; split;
      try reflexivity; apply subseq_nil.
  - destruct skip as [|k]; [|exact (IH k (Some c))].
    cbn [skipn].
    destruct (Re.match_here r before (c :: s)) as [st|] eqn:E.
    + destruct (whole _ _ _ E) as (m & t & H & Hp & Hg).
      injection H as -> ->.
      cbn [Re.sub_from]. rewrite E, Hp. unfold Re.expand. rewrite Hg.
      cbn [skipn firstn Nat.sub app].
      rewrite firstn_app, Nat.sub_diag, firstn_all, app_nil_r.
      destruct (IH (length m) (Some first)) as [Hd Hs].
      rewrite skipn_app, skipn_all, Nat.sub_diag in Hd, Hs.
      cbn [skipn app] in Hd, Hs.
      rewrite <- app_assoc. cbn [app]. split.
      * change (despace (" "%char :: ?x)) with (despace x).
        change (first :: m ++ " "%char :: ?x)
          with ((first :: m) ++ " "%char :: x).
        change (first :: m ++ t) with ((first :: m) ++ t).
        rewrite !despace_app.
        change (despace (" "%char :: ?x)) with (despace x).
        now rewrite Hd.
      * apply subseq_skip.
        change (first :: m ++ " "%char :: ?x)
          with ((first :: m) ++ " "%char :: x).
        change (first :: m ++ t) with ((first :: m) ++ t).
        apply subseq_app; [apply subseq_refl|]. now apply subseq_skip.
    + cbn [Re.sub_from]. rewrite E. destruct (IH 0 (Some c)) as [Hd Hs].
      cbn [skipn] in Hd, Hs. split.
      * unfold despace in *. cbn [filter]. now rewrite Hd.
      * now apply subseq_keep.
Qed.

End Sub.

(** ** What the matcher finds on a formula *)

Lemma after_app (before : option ascii) (a b : str) :
  after before (a ++ b) = after (after before a) b.
Proof. apply fold_left_app. Qed.

Lemma after_in (before : option ascii) (x : str) :
  x <> [] -> exists c, after before x = Some c /\ In c x.
Proof.
  revert before. induction x as [|c x IH]; intros before H; [contradiction|].
  destruct x as [|d x].
  - exists c. split; [reflexivity|now left].
  - destruct (IH (Some c)) as (e & He & Hin); [discriminate|].
    exists e. split; [exact He|now right].
Qed.

Lemma app_inv_length {A : Type} (a c b d : list A) :
  a ++ b = c ++ d -> length a = length c -> a = c /\ b = d.
Proof.
  revert c. induction a as [|x a IH]; intros [|y c] H Hl;
    try discriminate Hl.
  - now split.
  - injection H as -> H. injection Hl as Hl.
    destruct (IH _ H Hl) as [-> ->]. now split.
Qed.

Lemma lazy_dots_through (want : ascii) (x : str) :
  forall before n t g k,
    (forall st c s', Re.ahead st = c :: s' -> c <> want -> k st = None) ->
    Forall (fun c => c <> nl /\ c <> want) x ->
    Re.lazy_dots before n (x ++ t) g k
    = Re.lazy_dots (after before x) (n + length x) t g k.
Proof.
  induction x as [|c x IH]; intros before n t g k Hk Hx.
  - cbn [app length after fold_left]. now rewrite Nat.add_0_r.
  - inversion Hx as [|? ? [Hn Hw] Hx']; subst.
    cbn [app Re.lazy_dots].
    rewrite (Hk {| Re.prev := before; Re.pos := n; Re.ahead := c :: x ++ t;
                   Re.group1 := g |} c (x ++ t) eq_refl Hw).
    replace (Ascii.eqb c nl) with false
      by (symmetry; now apply Ascii.eqb_neq).
    rewrite IH by assumption. cbn [length]. now rewrite Nat.add_succ_r.
Qed.

Lemma lazy_dots_none (want : ascii) (b : str) :
  forall before n g k,
    (forall st, (forall s', Re.ahead st <> want :: s') -> k st = None) ->
    ~ In want b ->
    Re.lazy_dots before n b g k = None.
Proof.
  induction b as [|c b IH]; intros before n g k Hk Hb; cbn [Re.lazy_dots].
  - rewrite Hk; [reflexivity|]. cbn. discriminate.
  - rewrite Hk.
    + destruct (Ascii.eqb c nl); [reflexivity|].
      apply IH; [exact Hk|]. intros Hin. apply Hb. now right.
    + cbn. intros s' H. injection H as -> _. apply Hb. now left.
Qed.

Lemma lit_needs (c : ascii) (st : Re.state)
    (k : Re.state -> option Re.state) :
  (forall s', Re.ahead st <> c :: s') -> Re.run (Re.Lit c) st k = None.
Proof.
  intros H. cbn [Re.run]. destruct (Re.ahead st) as [|d s']; [reflexivity|].
  destruct (Ascii.eqb c d) eqn:E; [|reflexivity].
  apply Ascii.eqb_eq in E. subst d. now elim (H s').
Qed.

Section Delimited.

Variables o1 o2 c1 c2 : ascii.

Lemma delimited_whole : matches_whole o1 (delimited o1 o2 c1 c2).
Proof. apply group_matches_whole. Qed.

Lemma delimited_match (before : option ascii) (x t : str) :
  Forall (fun c => c <> nl /\ c <> c1) x ->
  exists st,
    Re.match_here (delimited o1 o2 c1 c2) before
      (o1 :: o2 :: x ++ c1 :: c2 :: t) = Some st
    /\ Re.pos st = S (S (S (S (length x)))).
Proof.
  intros Hx. unfold Re.match_here, delimited. cbn [Re.run Re.ahead].
  rewrite !Ascii.eqb_refl. cbn [Re.ahead Re.pos Re.group1 Re.prev].
  rewrite (lazy_dots_through c1).
  - cbn [Re.lazy_dots Re.run Re.ahead]. rewrite !Ascii.eqb_refl.
    eexists. split; [reflexivity|]. cbn. lia.
  - intros st c s' Ha Hc. rewrite Ha.
    replace (Ascii.eqb c1 c) with false
      by (symmetry; apply Ascii.eqb_neq; congruence).
    reflexivity.
  - exact Hx.
Qed.

Lemma delimited_needs_second (before : option ascii) (t : str) :
  (forall t', t <> o2 :: t') ->
  Re.match_here (delimited o1 o2 c1 c2) before (o1 :: t) = None.
Proof.
  intros H. unfold Re.match_here, delimited. cbn [Re.run Re.ahead].
  rewrite Ascii.eqb_refl. destruct t as [|d t]; [reflexivity|].
  destruct (Ascii.eqb o2 d) eqn:E; [|reflexivity].
  apply Ascii.eqb_eq in E. subst d. now elim (H t).
Qed.

Lemma delimited_needs_close (before : option ascii) (b : str) :
  ~ In c1 b ->
  Re.match_here (delimited o1 o2 c1 c2) before (o1 :: o2 :: b) = None.
Proof.
  intros H. unfold Re.match_here, delimited. cbn [Re.run Re.ahead].
  rewrite !Ascii.eqb_refl. cbn [Re.ahead Re.pos Re.group1 Re.prev].
  apply (lazy_dots_none c1); [|exact H].
  intros st Hs. destruct (Re.ahead st) as [|d s'] eqn:Ea; [reflexivity|].
  destruct (Ascii.eqb c1 d) eqn:E; [|reflexivity].
  apply Ascii.eqb_eq in E. subst d. now elim (Hs s').
Qed.

(** A delimited formula is put between two spaces. *)
Lemma sub_delimited_formula (before : option ascii) (x t : str) :
  Forall (fun c => c <> nl /\ c <> c1) x ->
  Re.sub_from (delimited o1 o2 c1 c2) 0 before
    (o1 :: o2 :: x ++ c1 :: c2 :: t)
  = " "%char :: o1 :: o2 :: x ++ c1 :: c2 :: " "%char
      :: Re.sub_from (delimited o1 o2 c1 c2) 0 (Some c2) t.
Proof.
  intros Hx. destruct (delimited_match before x t Hx) as (st & E & Hp).
  destruct (sub_from_match o1 _ delimited_whole _ _ _ E)
    as (m & t' & Hs & Hp' & ->).
  injection Hs as Hs. rewrite Hp in Hp'. injection Hp' as Hl.
  replace (o2 :: x ++ c1 :: c2 :: t)
    with ((o2 :: x ++ [c1; c2]) ++ t) in Hs
    by (cbn [app]; now rewrite <- app_assoc).
  destruct (app_inv_length _ _ _ _ Hs) as [Hm Ht].
  { cbn [length]. rewrite length_app. cbn [length]. lia. }
  subst m t'. cbn [app]. rewrite <- app_assoc. cbn [app].
  do 5 f_equal. change (o2 :: x ++ [c1; c2]) with ((o2 :: x) ++ [c1; c2]).
  now rewrite after_app.
Qed.

End Delimited.

Lemma sub_from_none (r : Re.regex) (before : option ascii) (c : ascii)
    (s : str) :
  Re.match_here r before (c :: s) = None ->
  Re.sub_from r 0 before (c :: s) = c :: Re.sub_from r 0 (Some c) s.
Proof. intros E. cbn [Re.sub_from]. now rewrite E. Qed.

Section Guarded.

Variables g o c : ascii.

Lemma guarded_match (before : option ascii) (x t : str) :
  before <> Some g ->
  Forall (fun d => d <> nl /\ d <> c) x ->
  (forall t', t <> g :: t') ->
  exists st,
    Re.match_here (guarded g o c) before (o :: x ++ c :: t) = Some st
    /\ Re.pos st = S (S (length x)).
Proof.
  intros Hb Hx Ht. unfold Re.match_here, guarded.
  cbn [Re.run Re.prev Re.ahead].
  assert (forall (A : Type) (u v : A),
             match before with
             | Some d => if Ascii.eqb g d then u else v
             | None => v
             end = v) as Hb'.
  { intros A u v. destruct before as [d|]; [|reflexivity].
    destruct (Ascii.eqb g d) eqn:E; [|reflexivity].
    apply Ascii.eqb_eq in E. congruence. }
  rewrite Hb'. rewrite Ascii.eqb_refl.
  cbn [Re.ahead Re.pos Re.group1 Re.prev].
  rewrite (lazy_dots_through c).
  - cbn [Re.lazy_dots Re.ahead]. rewrite Ascii.eqb_refl.
    cbn [Re.ahead].
    assert (forall (A : Type) (u v : A),
               match t with
               | [] => v
               | d :: _ => if Ascii.eqb g d then u else v
               end = v) as Ht'.
    { intros A u v. destruct t as [|d t]; [reflexivity|].
      destruct (Ascii.eqb g d) eqn:E; [|reflexivity].
      apply Ascii.eqb_eq in E. subst d. now elim (Ht t). }
    rewrite Ht'. eexists. split; [reflexivity|]. cbn. lia.
  - intros st d s' Ha Hd. rewrite Ha.
    replace (Ascii.eqb c d) with false
      by (symmetry; apply Ascii.eqb_neq; congruence).
    reflexivity.
  - exact Hx.
Qed.

End Guarded.

Lemma inline_dollars_match (before : option ascii) (x t : str) :
  before <> Some "$"%char ->
  Forall (fun c => c <> nl /\ c <> "$"%char) x ->
  (forall t', t <> "$"%char :: t') ->
  exists st,
    Re.match_here inline_dollars before ("$"%char :: x ++ "$"%char :: t)
    = Some st
    /\ Re.pos st = S (S (length x)).
Proof. apply (guarded_match "$" "$" "$"). Qed.

(** An inline formula is put between two spaces. *)
Lemma sub_inline_formula (before : option ascii) (x t : str) :
  before <> Some "$"%char ->
  Forall (fun c => c <> nl /\ c <> "$"%char) x ->
  (forall t', t <> "$"%char :: t') ->
  Re.sub_from inline_dollars 0 before ("$"%char :: x ++ "$"%char :: t)
  = " "%char :: "$"%char :: x ++ "$"%char :: " "%char
      :: Re.sub_from inline_dollars 0 (Some "$"%char) t.
Proof.
  intros Hb Hx Ht.
  destruct (inline_dollars_match before x t Hb Hx Ht) as (st & E & Hp).
  destruct (sub_from_match "$" _ inline_dollars_whole _ _ _ E)
    as (m & t' & Hs & Hp' & ->).
  injection Hs as Hs. rewrite Hp in Hp'. injection Hp' as Hl.
  replace (x ++ "$"%char :: t) with ((x ++ ["$"%char]) ++ t) in Hs
    by now rewrite <- app_assoc.
  destruct (app_inv_length _ _ _ _ Hs) as [Hm Ht'].
  { rewrite length_app. cbn [length]. lia. }
  subst m t'. rewrite <- app_assoc. cbn [app].
  do 4 f_equal. now rewrite after_app.
Qed.

Lemma not_in_app {A : Type} (c : A) (u v : list A) :
  ~ In c u -> ~ In c v -> ~ In c (u ++ v).
Proof. intros Hu Hv H. apply in_app_or in H. tauto. Qed.

Lemma not_in_cons {A : Type} (c d : A) (v : list A) :
  c <> d -> ~ In c v -> ~ In c (d :: v).
Proof. intros Hd Hv [H|H]; [congruence|contradiction]. Qed.

Lemma formula_chars (x : str) :
  Forall formula_char x ->
  ~ In "$"%char x /\ ~ In "\"%char x
  /\ Forall (fun c => c <> nl /\ c <> "$"%char) x
  /\ Forall (fun c => c <> nl /\ c <> "\"%char) x.
Proof.
  induction 1 as [|c x (Hn & Hd & Hb) _ (I1 & I2 & I3 & I4)].
  - repeat split; try constructor; intros [].
  - repeat split; try (constructor; [split|]); try assumption.
    + apply not_in_cons; [congruence|exact I1].
    + apply not_in_cons; [congruence|exact I2].
Qed.

Lemma after_not (c : ascii) (before : option ascii) (a : str) :
  before <> Some c -> ~ In c a -> after before a <> Some c.
Proof.
  revert before. induction a as [|d a IH]; intros before Hb Ha;
    [exact Hb|].
  apply IH.
  - intros H. injection H as ->. apply Ha. now left.
  - intros H. apply Ha. now right.
Qed.

(** A dollar sign with no dollar sign after it starts no display formula. *)
Lemma sub_display_lonely (before : option ascii) (b : str) :
  ~ In "$"%char b ->
  Re.sub_from display_dollars 0 before ("$"%char :: b) = "$"%char :: b.
Proof.
  intros Hb. rewrite sub_from_none.
  - now rewrite (sub_from_plain "$" _ display_dollars_whole).
  - apply (delimited_needs_second "$" "$" "$" "$").
    intros t' ->. apply Hb. now left.
Qed.

Lemma sub_display_inline (before : option ascii) (x b : str) :
  ~ In "$"%char x -> ~ In "$"%char b ->
  Re.sub_from display_dollars 0 before ("$"%char :: x ++ "$"%char :: b)
  = "$"%char :: x ++ "$"%char :: b.
Proof.
  intros Hx Hb. destruct x as [|c x].
  - cbn [app]. rewrite sub_from_none.
    + now rewrite sub_display_lonely.
    + now apply (delimited_needs_close "$" "$" "$" "$").
  - rewrite sub_from_none.
    + rewrite (sub_from_copy "$" _ display_dollars_whole) by exact Hx.
      now rewrite sub_display_lonely.
    + apply (delimited_needs_second "$" "$" "$" "$").
      intros t' H. injection H as -> _. apply Hx. now left.
Qed.

(** Text delimited for the other bracket pattern is passed over. *)
Lemma sub_other_delimiters (o2 c2 p q : ascii) (a x b : str)
    (before : option ascii) :
  p <> o2 -> q <> o2 ->
  ~ In "\"%char a -> ~ In "\"%char x -> ~ In "\"%char b ->
  p <> "\"%char -> q <> "\"%char ->
  Re.sub_from (delimited "\" o2 "\" c2) 0 before
    (a ++ "\"%char :: p :: x ++ "\"%char :: q :: b)
  = a ++ "\"%char :: p :: x ++ "\"%char :: q :: b.
Proof.
  intros Hp Hq Ha Hx Hb Hpb Hqb.
  pose proof (delimited_whole "\" o2 "\" c2) as W.
  rewrite (sub_from_copy "\" _ W) by exact Ha. f_equal.
  rewrite sub_from_none
    by (apply delimited_needs_second; intros t' H; congruence).
  f_equal.
  change (p :: x ++ "\"%char :: q :: b)
    with ((p :: x) ++ "\"%char :: q :: b).
  rewrite (sub_from_copy "\" _ W)
    by (apply not_in_cons; [congruence|exact Hx]).
  f_equal.
  rewrite sub_from_none
    by (apply delimited_needs_second; intros t' H; congruence).
  f_equal.
  apply (sub_from_plain "\" _ W).
  apply not_in_cons; [congruence|exact Hb].
Qed.

(** ** The filter on texts and formulas *)

Ltac plain_text :=
  repeat first
    [ assumption
    | apply not_in_app
    | apply not_in_cons; [discriminate|]
    | intros [] ].

(** X13: the filter only adds spaces: the text given is what is returned
    with some characters removed, and with the spaces taken out of both
    the two texts are the same. *)
Theorem add_spaces_only_adds_spaces (text : str) :
  subseq text (add_spaces_to_latex text)
  /\ despace (add_spaces_to_latex text) = despace text.
Proof.
  unfold add_spaces_to_latex, Re.sub.
  destruct (sub_from_spaces "$" _ display_dollars_whole text 0 None)
    as [D1 S1].
  destruct (sub_from_spaces "$" _ inline_dollars_whole
              (Re.sub_from display_dollars 0 None text) 0 None)
    as [D2 S2].
  destruct (sub_from_spaces "\" _ display_brackets_whole
              (Re.sub_from inline_dollars 0 None
                 (Re.sub_from display_dollars 0 None text)) 0 None)
    as [D3 S3].
  destruct (sub_from_spaces "\" _ inline_parens_whole
              (Re.sub_from display_brackets 0 None
                 (Re.sub_from inline_dollars 0 None
                    (Re.sub_from display_dollars 0 None text))) 0 None)
    as [D4 S4].
  cbn [skipn] in *. split.
  - eapply subseq_trans; [exact S1|].
    eapply subseq_trans; [exact S2|].
    eapply subseq_trans; [exact S3|exact S4].
  - now rewrite D4, D3, D2, D1.
Qed.

(** X14: a text with no dollar sign and no backslash is returned as it
    is. *)
Theorem add_spaces_plain_text (text : str) :
  no_delimiter text -> add_spaces_to_latex text = text.
Proof.
  intros [Hd Hb]. unfold add_spaces_to_latex, Re.sub.
  rewrite (sub_from_plain "$" _ display_dollars_whole) by exact Hd.
  rewrite (sub_from_plain "$" _ inline_dollars_whole) by exact Hd.
  rewrite (sub_from_plain "\" _ display_brackets_whole) by exact Hb.
  now rewrite (sub_from_plain "\" _ inline_parens_whole).
Qed.

Lemma add_spaces_plain_text_witness :
  add_spaces_to_latex (lit "The answer is 42.") = lit "The answer is 42.".
Proof.
  apply add_spaces_plain_text. split; vm_compute; intuition discriminate.
Defined.

(** X15: an inline formula [$x$] standing in text without dollar signs
    and backslashes, with [x] free of dollar signs, backslashes and line
    feeds, gets one space on each side and nothing else changes. *)
Theorem add_spaces_inline_formula (a x b : str) :
  no_delimiter a -> no_delimiter b -> Forall formula_char x ->
  add_spaces_to_latex (a ++ lit "$" ++ x ++ lit "$" ++ b)
  = a ++ lit " $" ++ x ++ lit "$ " ++ b.
Proof.
  intros [Ha Ha'] [Hb Hb'] Hx.
  destruct (formula_chars x Hx) as (Hxd & Hxb & Hx1 & Hx2).
  cbn [lit list_ascii_of_string app].
  unfold add_spaces_to_latex, Re.sub.
  (* the display pattern finds nothing *)
  rewrite (sub_from_copy "$" _ display_dollars_whole) by exact Ha.
  rewrite sub_display_inline by assumption.
  (* the inline pattern finds the formula *)
  rewrite (sub_from_copy "$" _ inline_dollars_whole) by exact Ha.
  rewrite sub_inline_formula;
    [|apply after_not; [discriminate|exact Ha]|exact Hx1
     |intros t' ->; apply Hb; now left].
  rewrite (sub_from_plain "$" _ inline_dollars_whole) by exact Hb.
  (* no backslash for the last two patterns *)
  rewrite (sub_from_plain "\" _ display_brackets_whole) by plain_text.
  now rewrite (sub_from_plain "\" _ inline_parens_whole) by plain_text.
Qed.

Lemma add_spaces_inline_formula_witness :
  add_spaces_to_latex (lit "so $E=mc^2$ holds") = lit "so  $E=mc^2$  holds".
Proof.
  apply (add_spaces_inline_formula (lit "so ") (lit "E=mc^2") (lit " holds"));
    try (split; vm_compute; intuition discriminate).
  repeat constructor; discriminate.
Defined.

(** X16: a display formula [$$x$$] standing in text without dollar signs
    and backslashes, with [x] not empty and free of dollar signs,
    backslashes and line feeds, is first put between two spaces by the
    pattern for [$$...$$]; the pattern for [$...$] then takes each [$$] for
    a formula of its own and puts spaces around it too, so that the formula
    is returned as ["  $$ x $$  "], its delimiters set apart from its
    body. *)
Theorem add_spaces_display_formula (a x b : str) :
  no_delimiter a -> no_delimiter b -> Forall formula_char x -> x <> [] ->
  add_spaces_to_latex (a ++ lit "$$" ++ x ++ lit "$$" ++ b)
  = a ++ lit "  $$ " ++ x ++ lit " $$  " ++ b.
Proof.
  intros [Ha Ha'] [Hb Hb'] Hx Hne.
  destruct (formula_chars x Hx) as (Hxd & Hxb & Hx1 & Hx2).
  cbn [lit list_ascii_of_string app].
  unfold add_spaces_to_latex, Re.sub.
  (* the display pattern finds the formula *)
  rewrite (sub_from_copy "$" _ display_dollars_whole) by exact Ha.
  change display_dollars with (delimited "$" "$" "$" "$") at 1.
  rewrite sub_delimited_formula by exact Hx1.
  change (delimited "$" "$" "$" "$") with display_dollars.
  rewrite (sub_from_plain "$" _ display_dollars_whole) by exact Hb.
  (* the inline pattern finds the two delimiters *)
  rewrite (sub_from_copy "$" _ inline_dollars_whole) by exact Ha.
  rewrite (sub_from_other "$" _ inline_dollars_whole) by discriminate.
  change ("$"%char :: "$"%char :: x ++ "$"%char :: "$"%char :: " "%char :: b)
    with ("$"%char :: [] ++ "$"%char
            :: (x ++ "$"%char :: "$"%char :: " "%char :: b)).
  rewrite sub_inline_formula;
    [|discriminate|constructor
     |intros t' H; destruct x as [|c x]; [contradiction|];
      injection H as -> _; apply Hxd; now left].
  rewrite (sub_from_copy "$" _ inline_dollars_whole) by exact Hxd.
  change ("$"%char :: "$"%char :: " "%char :: b)
    with ("$"%char :: [] ++ "$"%char :: " "%char :: b).
  rewrite sub_inline_formula;
    [|destruct (after_in (Some "$"%char) x Hne) as (c & -> & Hc);
      intros H; injection H as ->; contradiction
     |constructor|discriminate].
  rewrite (sub_from_plain "$" _ inline_dollars_whole) by plain_text.
  cbn [app].
  (* no backslash for the last two patterns *)
  rewrite (sub_from_plain "\" _ display_brackets_whole) by plain_text.
  now rewrite (sub_from_plain "\" _ inline_parens_whole) by plain_text.
Qed.

Lemma add_spaces_display_formula_witness :
  add_spaces_to_latex (lit "so $$E=mc^2$$ holds")
  = lit "so   $$ E=mc^2 $$   holds".
Proof.
  apply (add_spaces_display_formula
           (lit "so ") (lit "E=mc^2") (lit " holds"));
    try (split; vm_compute; intuition discriminate);
    try discriminate.
  repeat constructor; discriminate.
Defined.

(** X17: a formula written [\[x\]] or [\(x\)], standing in text without
    dollar signs and backslashes, with [x] free of them and of line feeds,
    gets one space on each side and nothing else changes. *)
Theorem add_spaces_bracket_formulas (a x b : str) :
  no_delimiter a -> no_delimiter b -> Forall formula_char x ->
  add_spaces_to_latex (a ++ lit "\[" ++ x ++ lit "\]" ++ b)
  = a ++ lit " \[" ++ x ++ lit "\] " ++ b
  /\ add_spaces_to_latex (a ++ lit "\(" ++ x ++ lit "\)" ++ b)
     = a ++ lit " \(" ++ x ++ lit "\) " ++ b.
Proof.
  intros [Ha Ha'] [Hb Hb'] Hx.
  destruct (formula_chars x Hx) as (Hxd & Hxb & Hx1 & Hx2).
  cbn [lit list_ascii_of_string app].
  unfold add_spaces_to_latex, Re.sub. split.
  - rewrite (sub_from_plain "$" _ display_dollars_whole) by plain_text.
    rewrite (sub_from_plain "$" _ inline_dollars_whole) by plain_text.
    rewrite (sub_from_copy "\" _ display_brackets_whole) by exact Ha'.
    change display_brackets with (delimited "\" "[" "\" "]") at 1.
    rewrite sub_delimited_formula by exact Hx2.
    change (delimited "\" "[" "\" "]") with display_brackets.
    rewrite (sub_from_plain "\" _ display_brackets_whole) by exact Hb'.
    change (a ++ " "%char :: "\"%char :: "["%char
              :: x ++ "\"%char :: "]"%char :: " "%char :: b)
      with (a ++ [" "%char] ++ "\"%char :: "["%char
              :: x ++ "\"%char :: "]"%char :: " "%char :: b).
    rewrite app_assoc.
    change inline_parens with (delimited "\" "(" "\" ")").
    rewrite sub_other_delimiters;
      try discriminate; try assumption; try plain_text.
    now rewrite <- app_assoc.
  - rewrite (sub_from_plain "$" _ display_dollars_whole) by plain_text.
    rewrite (sub_from_plain "$" _ inline_dollars_whole) by plain_text.
    change display_brackets with (delimited "\" "[" "\" "]").
    rewrite sub_other_delimiters;
      try discriminate; try assumption.
    rewrite (sub_from_copy "\" _ inline_parens_whole) by exact Ha'.
    change inline_parens with (delimited "\" "(" "\" ")") at 1.
    rewrite sub_delimited_formula by exact Hx2.
    change (delimited "\" "(" "\" ")") with inline_parens.
    now rewrite (sub_from_plain "\" _ inline_parens_whole) by exact Hb'.
Qed.

Lemma add_spaces_bracket_formulas_witness :
  add_spaces_to_latex (lit "so \[E=mc^2\] holds")
  = lit "so  \[E=mc^2\]  holds"
  /\ add_spaces_to_latex (lit "so \(E=mc^2\) holds")
     = lit "so  \(E=mc^2\)  holds".
Proof.
  apply (add_spaces_bracket_formulas
           (lit "so ") (lit "E=mc^2") (lit " holds"));
    try (split; vm_compute; intuition discriminate).
  repeat constructor; discriminate.
Defined.

(** X18: the filter is not idempotent: run a second time on its own
    result, it puts a second space on each side of an inline formula. *)
Theorem add_spaces_twice (a x b : str) :
  no_delimiter a -> no_delimiter b -> Forall formula_char x ->
  add_spaces_to_latex
    (add_spaces_to_latex (a ++ lit "$" ++ x ++ lit "$" ++ b))
  = a ++ lit "  $" ++ x ++ lit "$  " ++ b.
Proof.
  intros Ha Hb Hx. rewrite add_spaces_inline_formula by assumption.
  cbn [lit list_ascii_of_string app].
  change (a ++ " "%char :: "$"%char :: x ++ "$"%char :: " "%char :: b)
    with (a ++ [" "%char] ++ lit "$" ++ x ++ lit "$" ++ " "%char :: b).
  rewrite app_assoc, add_spaces_inline_formula.
  - rewrite <- app_assoc. reflexivity.
  - destruct Ha. split; plain_text.
  - destruct Hb. split; plain_text.
  - exact Hx.
Qed.

Lemma add_spaces_twice_witness :
  add_spaces_to_latex (add_spaces_to_latex (lit "so $E=mc^2$ holds"))
  = lit "so   $E=mc^2$   holds".
Proof.
  apply (add_spaces_twice (lit "so ") (lit "E=mc^2") (lit " holds"));
    try (split; vm_compute; intuition discriminate).
  repeat constructor; discriminate.
Defined.

(** ** [outlet] *)

(** X19: [outlet] with the valve off returns the messages as they are; with
    the valve on it keeps the number, the order and the roles of the
    messages, leaves every message that is not an ["assistant"] message, and
    every content that is not a text, as it is, and in the other contents
    only adds spaces. *)
Theorem outlet_only_spaces_assistant_text (enabled : bool)
    (messages : list out_message) :
  outlet false messages = messages
  /\ map out_role (outlet enabled messages) = map out_role messages
  /\ Forall2
       (fun before after =>
          (out_role before <> Some (lit "assistant") -> after = before)
          /\ match out_content before, out_content after with
             | Text s, Text s' => subseq s s' /\ despace s' = despace s
             | NotText, NotText => True
             | _, _ => False
             end)
       messages (outlet enabled messages).
Proof.
  split; [reflexivity|]. unfold outlet.
  destruct enabled; cbn [negb].
  2:{ split; [reflexivity|].
      induction messages as [|m ms IH]; constructor; [|exact IH].
      split; [reflexivity|]. destruct (out_content m); [|exact I].
      split; [apply subseq_refl|reflexivity]. }
  split.
  - rewrite map_map. apply map_ext.
    intros [[r|] [s|]]; cbn [out_role out_content]; try reflexivity.
    now destruct (str_eqb r (lit "assistant")).
  - induction messages as [|m ms IH]; cbn [map]; constructor; [|exact IH].
    destruct m as [[r|] [s|]]; cbn [out_role out_content].
    + destruct (str_eqb r (lit "assistant")) eqn:E;
        cbn [out_role out_content].
      * split; [intros H; apply str_eqb_eq in E; congruence|].
        apply add_spaces_only_adds_spaces.
      * split; [reflexivity|]. split; [apply subseq_refl|reflexivity].
    + split; [reflexivity|exact I].
    + split; [reflexivity|]. split; [apply subseq_refl|reflexivity].
    + split; [reflexivity|exact I].
Qed.

(** ** Dollar signs that open no formula *)

Lemma lazy_dots_line_end (want : ascii) (x : str) :
  forall before n t g k,
    (forall st c s', Re.ahead st = c :: s' -> c <> want -> k st = None) ->
    ~ In want x -> want <> nl ->
    Re.lazy_dots before n (x ++ nl :: t) g k = None.
Proof.
  induction x as [|c x IH]; intros before n t g k Hk Hx Hw;
    cbn [app Re.lazy_dots].
  - rewrite (Hk {| Re.prev := before; Re.pos := n; Re.ahead := nl :: t;
                   Re.group1 := g |} nl t eq_refl)
      by congruence.
    now rewrite Ascii.eqb_refl.
  - rewrite (Hk {| Re.prev := before; Re.pos := n;
                   Re.ahead := c :: x ++ nl :: t; Re.group1 := g |}
               c (x ++ nl :: t) eq_refl)
      by (intros ->; apply Hx; now left).
    destruct (Ascii.eqb c nl); [reflexivity|].
    apply IH; [exact Hk| |exact Hw]. intros H. apply Hx. now right.
Qed.

Section GuardedNone.

Variables g o c : ascii.

Lemma guarded_needs_close (before : option ascii) (b : str) :
  ~ In c b -> Re.match_here (guarded g o c) before (o :: b) = None.
Proof.
  intros Hb. unfold Re.match_here, guarded.
  cbn [Re.run Re.prev Re.ahead].
  destruct before as [d|]; [destruct (Ascii.eqb g d); [reflexivity|]|];
    rewrite Ascii.eqb_refl;
    cbn [Re.ahead Re.pos Re.group1 Re.prev];
    (apply (lazy_dots_none c); [|exact Hb]);
    intros st Hs; (destruct (Re.ahead st) as [|e s'] eqn:Ea; [reflexivity|]);
    (destruct (Ascii.eqb c e) eqn:E; [|reflexivity]);
    apply Ascii.eqb_eq in E; subst e; now elim (Hs s').
Qed.

Lemma guarded_stops_at_line_end (before : option ascii) (x t : str) :
  ~ In c x -> c <> nl ->
  Re.match_here (guarded g o c) before (o :: x ++ nl :: t) = None.
Proof.
  intros Hx Hc. unfold Re.match_here, guarded.
  cbn [Re.run Re.prev Re.ahead].
  destruct before as [d|]; [destruct (Ascii.eqb g d); [reflexivity|]|];
    rewrite Ascii.eqb_refl;
    cbn [Re.ahead Re.pos Re.group1 Re.prev];
    (apply (lazy_dots_line_end c); [|exact Hx|exact Hc]);
    intros st e s' Ha He; rewrite Ha;
    (replace (Ascii.eqb c e) with false
       by (symmetry; apply Ascii.eqb_neq; congruence));
    reflexivity.
Qed.

End GuardedNone.

(** X20: a single dollar sign in text without backslashes, such as a
    price, is left alone: the text is returned as it is. *)
Theorem add_spaces_single_dollar (a b : str) :
  no_delimiter a -> no_delimiter b ->
  add_spaces_to_latex (a ++ lit "$" ++ b) = a ++ lit "$" ++ b.
Proof.
  intros [Ha Ha'] [Hb Hb']. cbn [lit list_ascii_of_string app].
  unfold add_spaces_to_latex, Re.sub.
  rewrite (sub_from_copy "$" _ display_dollars_whole) by exact Ha.
  rewrite sub_display_lonely by exact Hb.
  rewrite (sub_from_copy "$" _ inline_dollars_whole) by exact Ha.
  rewrite sub_from_none by (now apply (guarded_needs_close "$" "$" "$")).
  rewrite (sub_from_plain "$" _ inline_dollars_whole) by exact Hb.
  rewrite (sub_from_plain "\" _ display_brackets_whole) by plain_text.
  now rewrite (sub_from_plain "\" _ inline_parens_whole) by plain_text.
Qed.

Lemma add_spaces_single_dollar_witness :
  add_spaces_to_latex (lit "it costs $5 today") = lit "it costs $5 today".
Proof.
  apply (add_spaces_single_dollar (lit "it costs ") (lit "5 today"));
    split; vm_compute; intuition discriminate.
Defined.

(** X21: two dollar signs on different lines make no formula: with a line
    feed between them, and no other dollar sign or backslash in the text,
    the text is returned as it is. *)
Theorem add_spaces_not_across_lines (a x y b : str) :
  no_delimiter a -> no_delimiter x -> no_delimiter y -> no_delimiter b ->
  add_spaces_to_latex (a ++ lit "$" ++ x ++ nl :: y ++ lit "$" ++ b)
  = a ++ lit "$" ++ x ++ nl :: y ++ lit "$" ++ b.
Proof.
  intros [Ha Ha'] [Hx Hx'] [Hy Hy'] [Hb Hb'].
  cbn [lit list_ascii_of_string app].
  unfold add_spaces_to_latex, Re.sub.
  assert (~ In "$"%char (x ++ nl :: y)) as Hxy
      by (apply not_in_app; [exact Hx|];
          apply not_in_cons; [discriminate|exact Hy]).
  change (x ++ nl :: y ++ "$"%char :: b)
    with (x ++ [nl] ++ y ++ "$"%char :: b).
  rewrite (app_assoc x), (app_assoc (x ++ [nl])), <- (app_assoc x).
  cbn [app].
  (* the display pattern *)
  rewrite (sub_from_copy "$" _ display_dollars_whole) by exact Ha.
  rewrite sub_display_inline by assumption.
  (* the inline pattern: the first dollar sign meets the end of its line,
     the second the end of the text *)
  rewrite (sub_from_copy "$" _ inline_dollars_whole) by exact Ha.
  rewrite sub_from_none.
  2:{ rewrite <- app_assoc. cbn [app].
      apply (guarded_stops_at_line_end "$" "$" "$");
        [exact Hx|discriminate]. }
  rewrite (sub_from_copy "$" _ inline_dollars_whole) by exact Hxy.
  rewrite sub_from_none by (now apply (guarded_needs_close "$" "$" "$")).
  rewrite (sub_from_plain "$" _ inline_dollars_whole) by exact Hb.
  (* no backslash for the last two patterns *)
  assert (~ In "\"%char (x ++ nl :: y)) as Hxy'
      by (apply not_in_app; [exact Hx'|];
          apply not_in_cons; [discriminate|exact Hy']).
  rewrite (sub_from_plain "\" _ display_brackets_whole) by plain_text.
  now rewrite (sub_from_plain "\" _ inline_parens_whole) by plain_text.
Qed.

Lemma add_spaces_not_across_lines_witness :
  add_spaces_to_latex (lit "a" ++ lit "$" ++ lit "5" ++ nl :: lit "b"
                         ++ lit "$" ++ lit "6")
  = lit "a" ++ lit "$" ++ lit "5" ++ nl :: lit "b" ++ lit "$" ++ lit "6".
Proof.
  apply (add_spaces_not_across_lines (lit "a") (lit "5") (lit "b") (lit "6"));
    split; vm_compute; intuition discriminate.
Defined.

(** * Markers and decorations in the output *)


Lemma pairs_from_cons (P : ascii -> ascii -> bool) (prev : option ascii)
    (b : ascii) (s : str) :
  pairs_from P prev (b :: s)
  = match prev with
    | Some a => if P a b then 1 else 0
    | None => 0
    end + pairs_from P (Some b) s.
Proof. reflexivity. Qed.

Lemma occurrences_cons (p : str) (c : ascii) (s : str) :
  Py.occurrences p (c :: s)
  = (if Py.startswith p (c :: s) then 1 else 0) + Py.occurrences p s.
Proof. reflexivity. Qed.

Lemma occurrences_pair_cons (a b : ascii) (s : str) :
  forall c,
    Py.occurrences [a; b] (c :: s) = pairs_from (pair_of a b) (Some c) s.
Proof.
  induction s as [|d s IH]; intros c.
  - cbn [Py.occurrences Py.startswith pairs_from].
    now rewrite andb_false_r.
  - rewrite occurrences_cons, IH, pairs_from_cons.
    cbn [Py.startswith]. unfold pair_of. now rewrite andb_true_r.
Qed.

Lemma occurrences_pair (a b : ascii) (s : str) :
  Py.occurrences [a; b] s = pairs_from (pair_of a b) None s.
Proof.
  destruct s as [|c s]; [reflexivity|].
  now rewrite occurrences_pair_cons, pairs_from_cons.
Qed.




(** What the transformer removes: the markers and the leftover patterns. *)
Lemma leftover_removed (old : str) :
  In old leftover_patterns ->
  In old (think_open :: think_close :: leftover_patterns).
Proof. intros H. right. right. exact H. Qed.

Lemma leftover_nonempty (old : str) : In old leftover_patterns -> old <> [].
Proof.
  intros H ->. cbv in H.
  repeat (destruct H as [H|H]; [discriminate H|]). exact H.
Qed.

(** ** A measure that removals do not raise

    [m a s] counts something in the text [s] read from the state [a], and
    [next a s] is the state after [s].  When removing a marker or a
    leftover pattern anywhere never raises the count, and putting a
    decoration in the place of its marker raises it by at most [k_open]
    for the block-open decoration and not at all for the block-close one,
    then the same holds of the loops, of the removal passes, of
    [_transform_chunk] and of a sequence of calls through one context,
    whatever stands before and after the text. *)
Section Measure.

Variable St : Type.
Variable m : St -> str -> nat.
Variable next : St -> str -> St.
Variable k_open : nat.

Hypothesis m_app :
  forall a x y, m a (x ++ y) = m a x + m (next a x) y.
Hypothesis m_delete :
  forall p,
    In p (think_open :: think_close :: leftover_patterns) ->
    forall a x y, m a (x ++ y) <= m a (x ++ p ++ y).
Hypothesis m_open :
  forall a x y,
    m a (x ++ block_open ++ y) <= m a (x ++ think_open ++ y) + k_open.
Hypothesis m_close :
  forall a x y, m a (x ++ block_close ++ y) <= m a (x ++ think_close ++ y).

Lemma open_step_measure (result result' : str) (ctx ctx' : context) :
  open_step result ctx = Some (result', ctx') ->
  forall a v,
    m a (result' ++ v) + k_open * Nat.b2n (first_think_found ctx)
    <= m a (result ++ v) + k_open * Nat.b2n (first_think_found ctx').
Proof.
  unfold open_step.
  destruct (Py.index think_open result) as [idx|] eqn:E; [|discriminate].
  pose proof (index_split _ _ _ E) as Hs.
  remember (firstn idx result) as x eqn:Hx.
  remember (skipn (idx + length think_open) result) as y eqn:Hy.
  destruct (first_think_found ctx) eqn:F; cbn [negb]; intros H a v;
    destruct (some_pair_inj _ _ _ _ H) as [<- <-]; rewrite Hs;
    rewrite <- !app_assoc.
  - rewrite F.
    pose proof (m_delete think_open (or_introl eq_refl) a x (y ++ v)). lia.
  - cbn [first_think_found Nat.b2n].
    pose proof (m_open a x (y ++ v)). lia.
Qed.

Lemma open_loop_measure (fuel : nat) :
  forall (result result' : str) (ctx ctx' : context),
    open_loop fuel result ctx = Some (result', ctx') ->
    forall a v,
      m a (result' ++ v) + k_open * Nat.b2n (first_think_found ctx)
      <= m a (result ++ v) + k_open * Nat.b2n (first_think_found ctx').
Proof.
  induction fuel as [|fuel IH]; intros result result' ctx ctx';
    cbn [open_loop];
    destruct (open_step result ctx) as [[r c]|] eqn:E; intros H a v;
    try discriminate H.
  - destruct (some_pair_inj _ _ _ _ H) as [<- <-]. lia.
  - pose proof (IH _ _ _ _ H a v).
    pose proof (open_step_measure _ _ _ _ E a v). lia.
  - destruct (some_pair_inj _ _ _ _ H) as [<- <-]. lia.
Qed.

Lemma close_step_measure (is_last_think : bool) (result result' : str) :
  close_step is_last_think result = Some result' ->
  forall a v, m a (result' ++ v) <= m a (result ++ v).
Proof.
  unfold close_step.
  destruct (Py.index think_close result) as [idx|] eqn:E; [|discriminate].
  pose proof (index_split _ _ _ E) as Hs.
  remember (firstn idx result) as x eqn:Hx.
  remember (skipn (idx + length think_close) result) as y eqn:Hy.
  destruct is_last_think; intros H a v; destruct (some_inj _ _ H);
    rewrite Hs; rewrite <- !app_assoc.
  - apply m_close.
  - apply (m_delete think_close). right. left. reflexivity.
Qed.

Lemma close_loop_measure (is_last_think : bool) (fuel : nat) :
  forall result result' : str,
    close_loop fuel is_last_think result = Some result' ->
    forall a v, m a (result' ++ v) <= m a (result ++ v).
Proof.
  induction fuel as [|fuel IH]; intros result result';
    cbn [close_loop];
    destruct (close_step is_last_think result) as [r|] eqn:E;
    intros H a v; try discriminate H.
  - destruct (some_inj _ _ H). lia.
  - pose proof (IH _ _ H a v).
    pose proof (close_step_measure _ _ _ E a v). lia.
  - destruct (some_inj _ _ H). lia.
Qed.

(** One removal pass. *)
Lemma replace_measure (old : str) :
  In old leftover_patterns ->
  forall n s,
    length s <= n ->
    forall a v, m a (Py.replace old [] s ++ v) <= m a (s ++ v).
Proof.
  intros Hold. pose proof (leftover_nonempty _ Hold) as Hne.
  induction n as [|n IH]; intros s Hn a v.
  - destruct s; [reflexivity|cbn in Hn; lia].
  - destruct (Py.index old s) as [i|] eqn:E.
    + rewrite (replace_first old s Hne i E).
      pose proof (index_split _ _ _ E) as Hs.
      pose proof (index_bound _ _ _ E) as Hb.
      remember (firstn i s) as x eqn:Hx.
      remember (skipn (i + length old) s) as y eqn:Hy.
      assert (length y <= n) as Hl.
      { subst y. rewrite length_skipn.
        destruct old as [|c q]; [congruence|]. cbn [length] in *. lia. }
      rewrite Hs. rewrite <- !app_assoc.
      rewrite (m_app a x (Py.replace old [] y ++ v)).
      pose proof (IH y Hl (next a x) v).
      pose proof (m_delete old (leftover_removed _ Hold) a x (y ++ v)) as Hd.
      rewrite (m_app a x (y ++ v)) in Hd. lia.
    + rewrite (replace_absent old [] s E). lia.
Qed.

Lemma strip_leftovers_measure (result : str) (a : St) (v : str) :
  m a (strip_leftovers result ++ v) <= m a (result ++ v).
Proof.
  unfold strip_leftovers. cbn [leftover_patterns fold_left].
  do 5 (eapply Nat.le_trans;
        [eapply replace_measure;
         [repeat first [left; reflexivity | right]|apply le_n]|]).
  eapply replace_measure;
    [repeat first [left; reflexivity | right]|apply le_n].
Qed.

Lemma transform_chunk_measure (chunk result : str) (is_last_think : bool)
    (ctx ctx' : context) :
  transform_chunk chunk is_last_think ctx = Some (result, ctx') ->
  forall a v,
    m a (result ++ v) + k_open * Nat.b2n (first_think_found ctx)
    <= m a (chunk ++ v) + k_open * Nat.b2n (first_think_found ctx').
Proof.
  unfold transform_chunk, open_phase, close_phase.
  destruct (open_loop _ chunk ctx) as [[opened c1]|] eqn:Eo; [|discriminate].
  cbn [bind].
  destruct (close_loop _ is_last_think opened) as [closed|] eqn:Ec;
    [|discriminate].
  cbn [bind]. intros H a v.
  destruct (some_pair_inj _ _ _ _ H) as [<- <-].
  pose proof (open_loop_measure _ _ _ _ _ Eo a v).
  pose proof (close_loop_measure _ _ _ _ Ec a v).
  pose proof (strip_leftovers_measure closed a v). lia.
Qed.

Lemma transform_seq_measure (decisions : list (str * bool)) :
  forall (ctx ctx' : context) (results : list str),
    transform_seq ctx decisions = Some (results, ctx') ->
    forall a v,
      m a (concat results ++ v) + k_open * Nat.b2n (first_think_found ctx)
      <= m a (concat (map fst decisions) ++ v)
         + k_open * Nat.b2n (first_think_found ctx').
Proof.
  induction decisions as [|[chunk is_last] ds IH]; intros ctx ctx' results;
    cbn [transform_seq].
  - intros H a v. destruct (some_pair_inj _ _ _ _ H) as [<- <-].
    cbn [concat map]. lia.
  - destruct (transform_chunk chunk is_last ctx) as [[r c1]|] eqn:E;
      [|discriminate].
    cbn [bind].
    destruct (transform_seq c1 ds) as [[rs c2]|] eqn:Es; [|discriminate].
    cbn [bind]. intros H a v.
    destruct (some_pair_inj _ _ _ _ H) as [<- <-].
    cbn [concat map fst]. rewrite <- !app_assoc.
    pose proof (IH _ _ _ Es (next a r) v) as H1.
    pose proof (transform_chunk_measure _ _ _ _ _ E a
                  (concat (map fst ds) ++ v)) as H2.
    rewrite (m_app a r (concat rs ++ v)).
    rewrite (m_app a r (concat (map fst ds) ++ v)) in H2.
    lia.
Qed.

End Measure.

(** ** Texts without [>>]

    Every marker and every leftover pattern ends in [>], and no decoration
    holds one. *)










Section PairGone.

Variables a g : ascii.


End PairGone.










(** ** The decoration in the output *)

Lemma startswith_app_r (p u v : str) :
  Py.startswith p u = true -> Py.startswith p (u ++ v) = true.
Proof.
  revert u. induction p as [|a q IH]; intros [|b u] H;
    cbn [app Py.startswith] in *; try reflexivity; try discriminate H.
  apply andb_true_iff in H. destruct H as [-> H]. now rewrite (IH _ H).
Qed.

Lemma occurrences_app_sum (p u v : str) :
  p <> [] ->
  Py.occurrences p u + Py.occurrences p v <= Py.occurrences p (u ++ v).
Proof.
  intros Hp. induction u as [|c u IH].
  - cbn [app Py.occurrences]. rewrite (startswith_empty _ Hp). lia.
  - cbn [app]. rewrite !occurrences_cons.
    destruct (Py.startswith p (c :: u)) eqn:E; [|lia].
    change (c :: u ++ v) with ((c :: u) ++ v).
    rewrite (startswith_app_r _ _ v E). lia.
Qed.

Lemma occurrences_concat (p : str) (results : list str) :
  p <> [] ->
  list_sum (map (Py.occurrences p) results)
  <= Py.occurrences p (concat results).
Proof.
  intros Hp. unfold list_sum.
  induction results as [|r rs IH]; cbn [map fold_right concat].
  - lia.
  - pose proof (occurrences_app_sum p r (concat rs) Hp). lia.
Qed.

(** An occurrence of [c :: p] is an occurrence of [p] one place on. *)
Lemma occurrences_tail (c : ascii) (p s : str) :
  Py.occurrences (c :: p) s <= Py.occurrences p (tl s).
Proof.
  induction s as [|d s IH];
    [cbn [Py.occurrences Py.startswith tl]; lia|].
  rewrite occurrences_cons. cbn [tl Py.startswith].
  destruct s as [|e s].
  - cbn [Py.occurrences Py.startswith]. destruct (Ascii.eqb c d); cbn [andb];
      [|lia]. destruct (Py.startswith p []); lia.
  - rewrite (occurrences_cons p e s). cbn [tl] in IH.
    destruct (Ascii.eqb c d && Py.startswith p (e :: s)) eqn:E.
    + apply andb_true_iff in E. destruct E as [_ ->]. lia.
    + lia.
Qed.

Lemma occurrences_drop_head (c : ascii) (p s : str) :
  Py.occurrences (c :: p) s <= Py.occurrences p s.
Proof.
  eapply Nat.le_trans; [apply occurrences_tail|].
  destruct s as [|d s]; [reflexivity|].
  exact (occurrences_app_ge p [d] s).
Qed.

Lemma startswith_prefix (p q s : str) :
  Py.startswith (p ++ q) s = true -> Py.startswith p s = true.
Proof.
  revert s. induction p as [|a p IH]; intros [|b s] H;
    cbn [app Py.startswith] in *; try reflexivity; try discriminate H.
  apply andb_true_iff in H. destruct H as [-> H]. now rewrite (IH _ H).
Qed.

Lemma occurrences_prefix (p q s : str) :
  Py.occurrences (p ++ q) s <= Py.occurrences p s.
Proof.
  induction s as [|c s IH].
  - cbn [Py.occurrences].
    destruct (Py.startswith (p ++ q) []) eqn:E; [|lia].
    rewrite (startswith_prefix _ _ _ E). lia.
  - rewrite !occurrences_cons.
    destruct (Py.startswith (p ++ q) (c :: s)) eqn:E; [|lia].
    rewrite (startswith_prefix _ _ _ E). lia.
Qed.

(** Every decoration holds an [R] directly after a backtick. *)
Lemma occurrences_block_open (s : str) :
  Py.occurrences block_open s <= Py.occurrences (lit "`R") s.
Proof.
  change block_open
    with (nl :: "`"%char :: "`"%char :: lit "`R" ++ lit "easoning..." ++ [nl]).
  do 3 (eapply Nat.le_trans; [apply occurrences_drop_head|]).
  apply occurrences_prefix.
Qed.

(** ** An [R] that a backtick announces *)

Lemma armed_rs_app (a : bool) (x y : str) :
  armed_rs a (x ++ y) = armed_rs a x + armed_rs (fold_left arm x a) y.
Proof.
  revert a. induction x as [|c x IH]; intros a; [reflexivity|].
  cbn [app armed_rs fold_left]. rewrite IH. lia.
Qed.

Lemma arm_mono (a b : bool) (c : ascii) :
  (a = true -> b = true) -> arm a c = true -> arm b c = true.
Proof.
  unfold arm. intros H. destruct (Ascii.eqb "`" c); [reflexivity|].
  intros E. apply andb_true_iff in E. destruct E as [-> E].
  now rewrite (H E).
Qed.

Lemma armed_rs_mono (s : str) :
  forall a b, (a = true -> b = true) -> armed_rs a s <= armed_rs b s.
Proof.
  induction s as [|c s IH]; intros a b H; [reflexivity|].
  cbn [armed_rs].
  pose proof (IH (arm a c) (arm b c) (arm_mono a b c H)).
  destruct a; [rewrite (H eq_refl); lia|]. cbn [andb]. lia.
Qed.

(** The markers and the leftover patterns hold no [R] and leave the state
    as it is. *)
Lemma removed_armed (p : str) :
  In p (think_open :: think_close :: leftover_patterns) ->
  forall a, armed_rs a p = 0 /\ fold_left arm p a = a.
Proof.
  intros H a. cbn [leftover_patterns In] in H.
  repeat (destruct H as [H|H]; [subst p; destruct a; split; reflexivity|]).
  contradiction.
Qed.

Lemma armed_delete (p : str) :
  In p (think_open :: think_close :: leftover_patterns) ->
  forall a x y, armed_rs a (x ++ y) <= armed_rs a (x ++ p ++ y).
Proof.
  intros Hp a x y. rewrite !armed_rs_app.
  destruct (removed_armed p Hp (fold_left arm x a)) as [-> ->]. lia.
Qed.

Lemma armed_open (a : bool) (x y : str) :
  armed_rs a (x ++ block_open ++ y) <= armed_rs a (x ++ think_open ++ y) + 1.
Proof.
  rewrite !armed_rs_app.
  assert (forall b, armed_rs b block_open = 1
                    /\ fold_left arm block_open b = false) as H
      by (intros b; destruct b; split; reflexivity).
  destruct (H (fold_left arm x a)) as [-> ->].
  pose proof (armed_rs_mono y false
                (fold_left arm think_open (fold_left arm x a))).
  lia.
Qed.

Lemma armed_close (a : bool) (x y : str) :
  armed_rs a (x ++ block_close ++ y) <= armed_rs a (x ++ think_close ++ y).
Proof.
  rewrite !armed_rs_app.
  assert (forall b, armed_rs b block_close = 0
                    /\ fold_left arm block_close b = false) as H
      by (intros b; destruct b; split; reflexivity).
  destruct (H (fold_left arm x a)) as [-> ->].
  pose proof (armed_rs_mono y false
                (fold_left arm think_close (fold_left arm x a))).
  lia.
Qed.

(** An [R] directly after a backtick is one. *)
Lemma tick_r_armed (s : str) :
  forall prev a,
    (prev = Some "`"%char -> a = true) ->
    pairs_from (pair_of "`" "R") prev s <= armed_rs a s.
Proof.
  induction s as [|c s IH]; intros prev a H; [reflexivity|].
  rewrite pairs_from_cons. cbn [armed_rs].
  assert (Some c = Some "`"%char -> arm a c = true) as Hc.
  { intros E. injection E as ->. reflexivity. }
  pose proof (IH (Some c) (arm a c) Hc).
  destruct prev as [x|]; [|lia]. unfold pair_of at 1.
  destruct (Ascii.eqb "`" x) eqn:E; cbn [andb]; [|lia].
  apply Ascii.eqb_eq in E. subst x. pose proof (H eq_refl) as Ha. subst a.
  cbn [andb]. lia.
Qed.

Lemma occurrences_block_open_armed (s : str) :
  Py.occurrences block_open s <= armed_rs false s.
Proof.
  eapply Nat.le_trans; [apply occurrences_block_open|].
  change (lit "`R") with ["`"%char; "R"%char]. rewrite occurrences_pair.
  apply tick_r_armed. discriminate.
Qed.

(** The decoration in the whole output of a context, against the raw
    input: one more, when the context starts fresh, than the raw input has
    [R] that a backtick announces. *)
Lemma transform_seq_decorations (decisions : list (str * bool))
    (ctx : context) :
  exists results ctx',
    transform_seq ctx decisions = Some (results, ctx')
    /\ list_sum (map (Py.occurrences block_open) results)
       <= Py.occurrences block_open (concat results)
    /\ Py.occurrences block_open (concat results)
       <= (if first_think_found ctx then 0 else 1)
          + armed_rs false (concat (map fst decisions)).
Proof.
  destruct (transform_seq_total decisions ctx) as (results & ctx' & E & _).
  exists results, ctx'. split; [exact E|]. split.
  - apply occurrences_concat. discriminate.
  - eapply Nat.le_trans; [apply occurrences_block_open_armed|].
    pose proof (transform_seq_measure _ _ (fun a x => fold_left arm x a) 1
                  armed_rs_app armed_delete armed_open armed_close
                  _ _ _ _ E false []) as H.
    rewrite !app_nil_r in H.
    destruct (first_think_found ctx); destruct (first_think_found ctx');
      cbn [Nat.b2n] in H; lia.
Qed.

(** C6, the claim as stated fails: a decoration that the raw input holds
    is passed on beside the inserted one, and the removal of ["k>"] can
    join one together, so that the output of one fresh context holds the
    decoration twice. *)
Lemma block_open_appears_twice :
  transform_chunk (block_open ++ think_open) false fresh
  = Some (block_open ++ block_open, seen)
  /\ transform_chunk
       (think_open ++ nl :: lit "```Reasok>ning..." ++ [nl]) false fresh
     = Some (block_open ++ block_open, seen)
  /\ transform_chunk
       (think_open ++ nl :: lit "```k>Reasoning..." ++ [nl]) false fresh
     = Some (block_open ++ block_open, seen)
  /\ Py.occurrences block_open (block_open ++ block_open) = 2.
Proof. repeat split; vm_compute; reflexivity. Qed.

(** C6, amended: through one context that starts fresh the decoration is
    inserted at most once, however many ["<think>"] the input holds.  With
    a fresh context the first ["<think>"] of a chunk is replaced by the
    decoration and the loop goes on in the text after it with the flag set;
    with the flag set the loop only deletes (its result has no ["<think>"]
    and is the chunk with characters removed, nothing inserted); a chunk
    without ["<think>"] leaves text and context alone; along any sequence
    of chunks the flag is set from the first chunk with a ["<think>"] on
    and never cleared, so that at most one call inserts the decoration.
    In the whole output, the fragments put together in order, the
    decoration occurs at most once more than the raw input, the chunks put
    together, has an [R] that a backtick announces: an [R] after a
    backtick, directly or with nothing but characters of ["</think>"] in
    between.  So it occurs at most once when the raw input has no such
    [R], and then not at all when the context starts with the flag set.  ["<think>x<think>y"]
    with a fresh context gives ["\n```Reasoning...\nxy"]. *)
Theorem block_open_at_most_once :
  (forall (chunk : str) (idx : nat),
      Py.index think_open chunk = Some idx ->
      exists rest,
        open_phase (skipn (idx + length think_open) chunk) seen
        = Some (rest, seen)
        /\ open_phase chunk fresh
           = Some (firstn idx chunk ++ block_open ++ rest, seen))
  /\ (forall chunk : str,
         exists result,
           open_phase chunk seen = Some (result, seen)
           /\ subseq result chunk
           /\ Py.contains think_open result = false)
  /\ (forall (chunk : str) (ctx : context),
         Py.contains think_open chunk = false ->
         open_phase chunk ctx = Some (chunk, ctx))
  /\ (forall (decisions : list (str * bool)) (ctx ctx' : context)
             (results : list str),
         transform_seq ctx decisions = Some (results, ctx') ->
         first_think_found ctx'
         = first_think_found ctx
           || existsb (fun decision => Py.contains think_open (fst decision))
                decisions)
  /\ (forall (decisions : list (str * bool)) (ctx : context),
         exists n, decorating_calls ctx decisions = Some n /\ n <= 1)
  /\ (forall (decisions : list (str * bool)) (ctx : context),
         exists results ctx',
           transform_seq ctx decisions = Some (results, ctx')
           /\ list_sum (map (Py.occurrences block_open) results)
              <= Py.occurrences block_open (concat results)
           /\ Py.occurrences block_open (concat results)
              <= (if first_think_found ctx then 0 else 1)
                 + armed_rs false (concat (map fst decisions)))
  /\ (forall (decisions : list (str * bool)) (ctx : context),
         armed_rs false (concat (map fst decisions)) = 0 ->
         exists results ctx',
           transform_seq ctx decisions = Some (results, ctx')
           /\ Py.occurrences block_open (concat results) <= 1)
  /\ transform_chunk (lit "<think>x<think>y") false fresh
     = Some (block_open ++ lit "xy", seen).
Proof.
  split; [exact open_phase_fresh|].
  split.
  { intros chunk. destruct (open_phase_seen chunk) as (r & E & Hs & Hn).
    exists r. split; [exact E|]. split; [exact Hs|].
    now apply index_none_contains. }
  split.
  { intros chunk ctx H. apply open_loop_absent. now apply contains_false. }
  split; [exact transform_seq_flag|].
  split; [exact decorating_calls_at_most_once|].
  split; [exact transform_seq_decorations|].
  split.
  { intros decisions ctx H0.
    destruct (transform_seq_decorations decisions ctx)
      as (results & ctx' & E & _ & H).
    exists results, ctx'. split; [exact E|].
    rewrite H0 in H. destruct (first_think_found ctx); lia. }
  vm_compute. reflexivity.
Qed.

Lemma block_open_at_most_once_witness :
  (exists rest,
      open_phase (lit "b<think>c") seen = Some (rest, seen)
      /\ open_phase (lit "a<think>b<think>c") fresh
         = Some (lit "a" ++ block_open ++ rest, seen))
  /\ open_phase (lit "plain") fresh = Some (lit "plain", fresh)
  /\ (exists results ctx',
         transform_seq fresh
           [(lit "```python", false); (lit "<think>Read `this`", false);
            (lit "<think>b</think>", true)]
         = Some (results, ctx')
         /\ Py.occurrences block_open (concat results) <= 1).
Proof.
  destruct block_open_at_most_once as (H1 & _ & H3 & _ & _ & _ & H7 & _).
  split; [|split].
  - exact (H1 (lit "a<think>b<think>c") 1 eq_refl).
  - exact (H3 (lit "plain") fresh eq_refl).
  - apply H7. reflexivity.
Defined.
